(** * ShareFile front end: chunked upload client and download-link forms

  A shallow embedding of the TypeScript client of the ShareFile
  repository:

  - [frontend/lib/crypto.ts]                (module [Crypto]),
  - [frontend/lib/api.ts]                   (module [Api]),
  - [frontend/components/UploadManager.tsx] (module [UploadManager]),
  - [frontend/components/FileManager.tsx]   (module [FileManager]).

  What the browser does for the client (digests, dates, URL escaping,
  the network) is a parameter of the model: the class [Js.Platform] and
  the answers and schedules the functions below take as arguments.

  JavaScript numbers that hold byte counts and chunk indices are
  integers far below 2^53; they are modelled as [Z].  A [File] or [Blob]
  is the list of its bytes.  Strings are Rocq strings (read as UTF-8). *)

From Stdlib Require Import ZArith QArith Qround Ascii String.
From stdpp Require Import base list strings gmap pretty relations.

Local Open Scope Z_scope.

(** ** Platform primitives used by the client *)

Module Js.

Abbreviation blob := (list Byte.byte).

(** [blob.size] *)
Definition size (b : blob) : Z := Z.of_nat (length b).

(** [Blob.slice(start, end)]: negative offsets count from the end, both
    offsets are clamped to the blob, and the span is empty when the end
    does not exceed the start. *)
Definition relative (sz off : Z) : Z :=
  if off <? 0 then Z.max (sz + off) 0 else Z.min off sz.

Definition slice (b : blob) (start end_ : Z) : blob :=
  let s := relative (size b) start in
  let e := relative (size b) end_ in
  take (Z.to_nat (Z.max (e - s) 0)) (drop (Z.to_nat s) b).

(** [Math.ceil(a / b)] on integer-valued numbers: the quotient is taken
    in the rationals and rounded up.  (For operands below 2^53 the
    floating-point quotient rounds to the same integer.) *)
Definition ceil_div (a b : Z) : Z := Qceiling (inject_Z a / inject_Z b).

(** [Math.round(x)]: the nearest integer, a half rounded up. *)
Definition round (x : Q) : Z := Qfloor (x + (1 # 2)).

(** [String(n)] and string concatenation with an integer-valued number. *)
Definition String_ (n : Z) : string := pretty n.

(** [x || y] on strings: the empty string is falsy. *)
Definition or_else (x y : string) : string :=
  if decide (x = "") then y else x.

(** What the browser and the build environment supply and the repository
    only calls. *)
Class Platform := {
  (** [crypto.subtle.digest('SHA-256', buffer)] *)
  sha256_digest : blob → blob;
  (** [new Date(s).toISOString()]; [None] when the date is invalid and
      [toISOString] throws a [RangeError]. *)
  toISOString : string → option string;
  (** [s.trim()] *)
  trim : string → string;
  (** [encodeURIComponent(s)] *)
  encodeURIComponent : string → string;
  (** [new URLSearchParams(query).get(name)] *)
  searchParamsGet : string → string → option string;
  (** [process.env.NEXT_PUBLIC_API_BASE_URL] *)
  NEXT_PUBLIC_API_BASE_URL : option string;
  (** [process.env.NEXT_PUBLIC_PUBLIC_BASE_URL] *)
  NEXT_PUBLIC_PUBLIC_BASE_URL : option string;
  (** [window.location.origin], when there is a window *)
  window_location_origin : option string
}.

(** Completion of an awaited call: it returns, or it throws. *)
Inductive exn :=
| Error (message : string)
| SyntaxError (message : string)
| RangeError (message : string)
| TypeError (message : string).

Definition message (e : exn) : string :=
  match e with
  | Error m | SyntaxError m | RangeError m | TypeError m => m
  end.

Inductive completion (A : Type) :=
| Return (a : A)
| Throw (e : exn).
Arguments Return {A} a.
Arguments Throw {A} e.

(** A [File]: its name, its MIME type and its bytes. *)
Record File := {
  name : string;
  type : string;
  bytes : blob
}.

(** [s.split(sep)] for a one-character separator. *)
Fixpoint split (sep : ascii) (s : string) : list string :=
  match s with
  | EmptyString => [EmptyString]
  | String c rest =>
      if decide (c = sep) then EmptyString :: split sep rest
      else match split sep rest with
           | [] => [String c EmptyString]
           | piece :: pieces => String c piece :: pieces
           end
  end.

Definition toLowerCase_ascii (c : ascii) : ascii :=
  let n := nat_of_ascii c in
  if (65 <=? n)%nat && (n <=? 90)%nat then ascii_of_nat (n + 32) else c.

Fixpoint toLowerCase (s : string) : string :=
  match s with
  | EmptyString => EmptyString
  | String c rest => String (toLowerCase_ascii c) (toLowerCase rest)
  end.

(** A [Headers] object.  Header names are case-insensitive: the object
    files each header under its name in lower case, and [append] joins
    the values given for one name with a comma and a space. *)
Module Headers.

Abbreviation t := (gmap string string).

Definition get (h : t) (name : string) : option string :=
  h !! toLowerCase name.

Definition has (h : t) (name : string) : bool :=
  bool_decide (is_Some (h !! toLowerCase name)).

Definition set (h : t) (name value : string) : t :=
  <[toLowerCase name := value]> h.

Definition append (h : t) (name value : string) : t :=
  <[toLowerCase name :=
      match h !! toLowerCase name with
      | Some old => old +:+ ", " +:+ value
      | None => value
      end]> h.

(** [new Headers(init)]: the entries of [init] are appended in order;
    no entries when [init] is [undefined]. *)
Definition new (init : list (string * string)) : t :=
  foldl (λ h entry, append h entry.1 entry.2) ∅ init.

(** The names and values that the constructor and [set] take as they
    are: a name that is not a token, or a value with a NUL, a line feed
    or a carriage return in it, makes them throw a [TypeError], and white
    space around a value is stripped.  (A valid value is also taken to be
    ASCII here.) *)
Definition is_tchar (c : ascii) : bool :=
  let n := nat_of_ascii c in
  ((48 <=? n)%nat && (n <=? 57)%nat) || ((65 <=? n)%nat && (n <=? 90)%nat)
  || ((97 <=? n)%nat && (n <=? 122)%nat)
  || bool_decide (c ∈ list_ascii_of_string "!#$%&'*+-.^_`|~").

Definition valid_name (name : string) : bool :=
  negb (bool_decide (name = "")) && forallb is_tchar (list_ascii_of_string name).

Definition is_whitespace (c : ascii) : bool :=
  let n := nat_of_ascii c in
  bool_decide (n = 9%nat ∨ n = 10%nat ∨ n = 13%nat ∨ n = 32%nat).

Definition is_value_char (c : ascii) : bool :=
  let n := nat_of_ascii c in
  negb (bool_decide (n = 0%nat ∨ n = 10%nat ∨ n = 13%nat)) && (n <? 128)%nat.

Definition valid_value (value : string) : bool :=
  let cs := list_ascii_of_string value in
  forallb is_value_char cs
  && negb (from_option is_whitespace false (head cs))
  && negb (from_option is_whitespace false (last cs)).

Definition valid_entry (entry : string * string) : bool :=
  valid_name entry.1 && valid_value entry.2.

End Headers.

(** [/^https?:\/\//i.test(s)] *)
Definition is_http_url (s : string) : bool :=
  String.prefix "http://" (toLowerCase s) || String.prefix "https://" (toLowerCase s).

(** [s.replace(/\/$/, '')]: drop one trailing slash. *)
Fixpoint strip_trailing_slash (s : string) : string :=
  match s with
  | EmptyString => EmptyString
  | String c rest =>
      if bool_decide (c = "/"%char) && bool_decide (rest = EmptyString) then EmptyString
      else String c (strip_trailing_slash rest)
  end.

(** [hay.includes(needle)] *)
Fixpoint includes (needle hay : string) : bool :=
  String.prefix needle hay ||
  match hay with
  | EmptyString => false
  | String _ rest => includes needle rest
  end.

End Js.

(** ** lib/crypto.ts *)

Module Crypto.
Import Js.

Definition hex_digit (n : N) : ascii :=
  default "0"%char (String.get (N.to_nat n) "0123456789abcdef").

(** [byte.toString(16).padStart(2, '0')] *)
Definition byte_to_hex (b : Byte.byte) : string :=
  let n := Byte.to_N b in
  String (hex_digit (n `div` 16)%N) (String (hex_digit (n `mod` 16)%N) "").

(** [Array.from(bytes, ...).join('')] *)
Definition bufferToHex (buffer : blob) : string :=
  foldr (λ b acc, byte_to_hex b +:+ acc) "" buffer.

Definition sha256HexFromBlob `{Platform} (b : blob) : string :=
  bufferToHex (sha256_digest b).

Definition sha256HexFromFile `{Platform} (file : blob) : string :=
  bufferToHex (sha256_digest file).

(** Reading hex digits back; used to state that [bufferToHex] loses
    nothing of the buffer. *)
Definition hex_value (c : ascii) : option N :=
  let n := N_of_ascii c in
  if (48 <=? n)%N && (n <=? 57)%N then Some (n - 48)%N
  else if (97 <=? n)%N && (n <=? 102)%N then Some (n - 87)%N
  else None.

Fixpoint hexToBuffer (s : string) : option blob :=
  match s with
  | EmptyString => Some []
  | String hi (String lo rest) =>
      h ← hex_value hi; l ← hex_value lo;
      b ← Byte.of_N (16 * h + l)%N;
      bs ← hexToBuffer rest; Some (b :: bs)
  | String _ EmptyString => None
  end.

End Crypto.

(** ** lib/api.ts *)

Module Api.
Import Js.

Definition API_BASE_URL `{Platform} : string :=
  default "/api" NEXT_PUBLIC_API_BASE_URL.

(** Values of the flat JSON objects the client sends. *)
Inductive jsval :=
| VStr (s : string)
| VBool (b : bool)
| VNum (n : Z)
| VNull.

Inductive body_init :=
| BodyJson (obj : gmap string jsval)   (* JSON.stringify(payload) *)
| BodyBlob (b : blob)
| BodyFormData.

(** [RequestInit]: the fields the client sets.  A caller of [apiFetch]
    gives [headers] as the entries of an object literal ([H] is a list of
    name and value); what is handed to [fetch] holds a [Headers] object. *)
Record RequestInit (H : Type) := {
  method : option string;
  headers : H;
  body : option body_init
}.
Arguments method {H} _.
Arguments headers {H} _.
Arguments body {H} _.

Record request := {
  url : string;
  init : RequestInit Headers.t
}.

(** A [Response] that has arrived with its body, and what the client
    reads of it: [ok], [status], the [Content-Type] header,
    [await response.text()] and [await response.json()] (which throws
    when the body is not JSON). *)
Record response (T : Type) := {
  ok : bool;
  status : Z;
  content_type : option string;
  text : string;
  json : completion T
}.
Arguments ok {T} _.
Arguments status {T} _.
Arguments content_type {T} _.
Arguments text {T} _.
Arguments json {T} _.

(** What [apiFetch<T>] hands back under the cast [as T]. *)
Inductive fetched (T : Type) :=
| EmptyObject
| Json (v : T)
| Text (s : string).
Arguments EmptyObject {T}.
Arguments Json {T} v.
Arguments Text {T} s.

Definition is_FormData (b : option body_init) : bool :=
  match b with Some BodyFormData => true | _ => false end.

Definition truthy (s : option string) : bool :=
  match s with Some s => negb (bool_decide (s = "")) | None => false end.
Global Arguments truthy : simpl never.

(** [apiFetch], lines 39-50: the request handed to [fetch]. *)
Definition apiFetch_request `{Platform}
    (path : string) (options : RequestInit (list (string * string)))
    (token : option string) : request :=
  let h := Headers.new (headers options) in
  let h := Headers.set h "Accept" "application/json" in
  let h :=
    if negb (is_FormData (body options))
       && negb (Headers.has h "Content-Type")
       && truthy (method options)
       && negb (bool_decide (method options = Some "GET"))
    then Headers.set h "Content-Type" "application/json" else h in
  let h :=
    match token with
    | Some t => if truthy (Some t) then Headers.set h "Authorization" ("Bearer " +:+ t) else h
    | None => h
    end in
  {| url := API_BASE_URL +:+ path;
     init := {| method := method options; headers := h; body := body options |} |}.

(** [apiFetch], lines 52-65: what is done with the response. *)
Definition apiFetch_response {T} (r : response T) : completion (fetched T) :=
  if negb (ok r) then
    Throw (Error (or_else (text r) ("Request failed (" +:+ String_ (status r) +:+ ")")))
  else if status r =? 204 then
    Return EmptyObject
  else
    let contentType := default "" (content_type r) in
    if includes "application/json" contentType then
      match json r with
      | Return v => Return (Json v)
      | Throw e => Throw e
      end
    else Return (Text (text r)).

(** The exchange with the server: [Throw e] when [await fetch(...)], or
    the [await response.text()] that follows it, rejects with [e];
    [Return r] when the response has arrived with its body.  Neither
    await is guarded, so a rejection leaves [apiFetch] as it is. *)
Definition apiFetch {T} (reply : completion (response T)) : completion (fetched T) :=
  match reply with
  | Throw e => Throw e
  | Return r => apiFetch_response r
  end.

Definition createUploadSession_request `{Platform}
    (token : string) (payload : gmap string jsval) : request :=
  apiFetch_request "/upload/sessions"
    {| method := Some "POST"; headers := []; body := Some (BodyJson payload) |}
    (Some token).

Definition getSessionStatus_request `{Platform} (token sessionId : string) : request :=
  apiFetch_request ("/upload/sessions/" +:+ sessionId)
    {| method := Some "GET"; headers := []; body := None |}
    (Some token).

(** [uploadChunk], lines 148-159: the request handed to [fetch]. *)
Definition uploadChunk_request `{Platform}
    (token sessionId : string) (index : Z) (chunk : blob)
    (checksum idempotencyKey : string) : request :=
  let h := Headers.new [] in
  let h := Headers.set h "Content-Type" "application/octet-stream" in
  let h := Headers.set h "X-Chunk-Size" (String_ (size chunk)) in
  let h := Headers.set h "X-Chunk-Checksum" checksum in
  let h := Headers.set h "Idempotency-Key" idempotencyKey in
  let h := Headers.set h "Authorization" ("Bearer " +:+ token) in
  {| url := API_BASE_URL +:+ "/upload/sessions/" +:+ sessionId +:+ "/chunk/" +:+ String_ index;
     init := {| method := Some "PUT"; headers := h; body := Some (BodyBlob chunk) |} |}.

(** [uploadChunk], lines 161-164: what is done with the response. *)
Definition uploadChunk_response {T} (r : response T) : completion () :=
  if negb (ok r) then
    Throw (Error (or_else (text r) ("Chunk upload failed (" +:+ String_ (status r) +:+ ")")))
  else Return ().

Definition uploadChunk {T} (reply : completion (response T)) : completion () :=
  match reply with
  | Throw e => Throw e
  | Return r => uploadChunk_response r
  end.

Definition finalizeSession_request `{Platform}
    (token sessionId fileSha : string) : request :=
  apiFetch_request ("/upload/sessions/" +:+ sessionId +:+ "/finalize")
    {| method := Some "POST"; headers := [];
       body := Some (BodyJson {[ "file_sha256" := VStr fileSha ]}) |}
    (Some token).

Definition createDownloadLink_request `{Platform}
    (token fileId : string) (payload : gmap string jsval) : request :=
  apiFetch_request ("/files/" +:+ fileId +:+ "/links")
    {| method := Some "POST"; headers := []; body := Some (BodyJson payload) |}
    (Some token).

(** The response shapes the callers rely on. *)
Record CreatedSession := {
  upload_session_id : string;
  accepted_chunk_size : Z;
  session_expires_at : string
}.

Record SessionStatus := {
  received : list Z;
  missing : list Z;
  session_status : string
}.

Record FinalizeResult := {
  finalized_session_id : string;
  file_id : option string;
  finalize_status : string
}.

Record ApiDownloadLink := {
  id : string;
  link_url : string;
  expires_at : option string;
  download_count : Z;
  never_expires : bool;
  require_download_page : bool;
  has_password : bool;
  short_url : option string
}.

(** The remaining wrappers of lib/api.ts, lines 68-107 and 207-258. *)
Definition login_request `{Platform}
    (username password : string) (rememberMe : bool) : request :=
  apiFetch_request "/auth/token"
    {| method := Some "POST"; headers := [];
       body := Some (BodyJson (<["username" := VStr username]> (
                               <["password" := VStr password]> (
                               <["remember_me" := VBool rememberMe]> ∅)))) |}
    None.

Definition register_request `{Platform} (email password : string) : request :=
  apiFetch_request "/auth/register"
    {| method := Some "POST"; headers := [];
       body := Some (BodyJson (<["email" := VStr email]> (
                               <["password" := VStr password]> ∅))) |}
    None.

Definition getCurrentUser_request `{Platform} (token : string) : request :=
  apiFetch_request "/auth/me"
    {| method := Some "GET"; headers := []; body := None |} (Some token).

Definition changePassword_request `{Platform}
    (token : string) (payload : gmap string jsval) : request :=
  apiFetch_request "/auth/password"
    {| method := Some "POST"; headers := []; body := Some (BodyJson payload) |}
    (Some token).

Definition listFiles_request `{Platform}
    (token : string) (ownerId : option string) : request :=
  let query := if truthy ownerId then "?owner_id=" +:+ default "" ownerId else "" in
  apiFetch_request ("/files/" +:+ query)
    {| method := Some "GET"; headers := []; body := None |} (Some token).

Definition deleteFile_request `{Platform} (token fileId : string) : request :=
  apiFetch_request ("/files/" +:+ fileId)
    {| method := Some "DELETE"; headers := []; body := None |} (Some token).

Definition deleteDownloadLink_request `{Platform}
    (token fileId linkId : string) : request :=
  apiFetch_request ("/files/" +:+ fileId +:+ "/links/" +:+ linkId)
    {| method := Some "DELETE"; headers := []; body := None |} (Some token).

Definition listUsers_request `{Platform} (token : string) : request :=
  apiFetch_request "/admin/users/"
    {| method := Some "GET"; headers := []; body := None |} (Some token).

Definition adminCreateUser_request `{Platform}
    (token : string) (payload : gmap string jsval) : request :=
  apiFetch_request "/admin/users/"
    {| method := Some "POST"; headers := []; body := Some (BodyJson payload) |}
    (Some token).

Definition adminUpdateUser_request `{Platform}
    (token userId : string) (payload : gmap string jsval) : request :=
  apiFetch_request ("/admin/users/" +:+ userId)
    {| method := Some "PATCH"; headers := []; body := Some (BodyJson payload) |}
    (Some token).

Definition adminDeleteUser_request `{Platform} (token userId : string) : request :=
  apiFetch_request ("/admin/users/" +:+ userId)
    {| method := Some "DELETE"; headers := []; body := None |} (Some token).

(** The calls of lib/api.ts that go through [apiFetch], with their
    arguments, and the request each one makes. *)
Inductive call :=
| Login (username password : string) (rememberMe : bool)
| Register (email password : string)
| GetCurrentUser (token : string)
| ChangePassword (token : string) (payload : gmap string jsval)
| CreateUploadSession (token : string) (payload : gmap string jsval)
| GetSessionStatus (token sessionId : string)
| FinalizeSession (token sessionId fileSha : string)
| CreateDownloadLink (token fileId : string) (payload : gmap string jsval)
| ListFiles (token : string) (ownerId : option string)
| DeleteFile (token fileId : string)
| DeleteDownloadLink (token fileId linkId : string)
| ListUsers (token : string)
| AdminCreateUser (token : string) (payload : gmap string jsval)
| AdminUpdateUser (token userId : string) (payload : gmap string jsval)
| AdminDeleteUser (token userId : string).

Definition request_of `{Platform} (c : call) : request :=
  match c with
  | Login u pw r => login_request u pw r
  | Register e pw => register_request e pw
  | GetCurrentUser t => getCurrentUser_request t
  | ChangePassword t payload => changePassword_request t payload
  | CreateUploadSession t payload => createUploadSession_request t payload
  | GetSessionStatus t sid => getSessionStatus_request t sid
  | FinalizeSession t sid sha => finalizeSession_request t sid sha
  | CreateDownloadLink t fid payload => createDownloadLink_request t fid payload
  | ListFiles t owner => listFiles_request t owner
  | DeleteFile t fid => deleteFile_request t fid
  | DeleteDownloadLink t fid lid => deleteDownloadLink_request t fid lid
  | ListUsers t => listUsers_request t
  | AdminCreateUser t payload => adminCreateUser_request t payload
  | AdminUpdateUser t uid payload => adminUpdateUser_request t uid payload
  | AdminDeleteUser t uid => adminDeleteUser_request t uid
  end.

(** The token a call is made with. *)
Definition token_of (c : call) : option string :=
  match c with
  | Login _ _ _ | Register _ _ => None
  | GetCurrentUser t | ChangePassword t _ | CreateUploadSession t _
  | GetSessionStatus t _ | FinalizeSession t _ _ | CreateDownloadLink t _ _
  | ListFiles t _ | DeleteFile t _ | DeleteDownloadLink t _ _ | ListUsers t
  | AdminCreateUser t _ | AdminUpdateUser t _ _ | AdminDeleteUser t _ => Some t
  end.

End Api.

(** ** components/UploadManager.tsx *)

Module UploadManager.
Import Js Crypto Api.

Definition DEFAULT_CHUNK_SIZE : Z := 8 * 1024 * 1024.
Definition MAX_CONCURRENCY : Z := 4.

(** [baseDownloadUrl], lines 49-58 *)
Definition baseDownloadUrl `{Platform} : string :=
  let env := strip_trailing_slash <$> NEXT_PUBLIC_PUBLIC_BASE_URL in
  if truthy env then default "" env
  else default "" window_location_origin.

(** [buildAbsoluteUrl], lines 60-68 *)
Definition buildAbsoluteUrl `{Platform} (pathOrUrl : option string) : option string :=
  match pathOrUrl with
  | None => None
  | Some p =>
      if negb (truthy (Some p)) then None
      else if is_http_url p then Some p
      else Some (if truthy (Some baseDownloadUrl) then baseDownloadUrl +:+ p else p)
  end.

(** [totalChunks], lines 70-75 *)
Definition totalChunks (file : option File) (chunkSize : Z) : Z :=
  match file with
  | None => 0
  | Some file => ceil_div (size (bytes file)) chunkSize
  end.

(** *** [handleUpload]: session creation, lines 111-122 *)

Definition session_payload `{Platform} (file : File) (chunkSize : Z) : gmap string jsval :=
  let fileHash := sha256HexFromFile (bytes file) in
  let total := ceil_div (size (bytes file)) chunkSize in
  <["filename" := VStr (name file)]> (
  <["size" := VNum (size (bytes file))]> (
  <["mime_type" := VStr (type file)]> (
  <["chunk_size" := VNum chunkSize]> (
  <["total_chunks" := VNum total]> (
  <["file_sha256" := VStr fileHash]> ∅))))).

Definition session_request `{Platform} (token : string) (file : File) (chunkSize : Z) : request :=
  createUploadSession_request token (session_payload file chunkSize).

(** *** [handleUpload]: the probe and the upload queue, lines 128-139 *)

(** [Array.from({ length: total }, (_, idx) => idx)] *)
Definition all_indices (total : Z) : list Z :=
  Z.of_nat <$> seq 0 (Z.to_nat total).

Definition missing_of (probe : SessionStatus) (total : Z) : list Z :=
  if (0 <? length (missing probe))%nat then missing probe else all_indices total.

(** [new Set(probe.received).size] *)
Definition received_count (probe : SessionStatus) : Z :=
  Z.of_nat (length (remove_dups (received probe))).

(** *** [uploadWorker], lines 141-167, and the pool, lines 169-170 *)

(** What one run of the pool is closed over. *)
Record run := {
  token : string;
  currentSessionId : string;
  file : File;
  chunkSize : Z;
  total : Z
}.

(** Lines 147-149 *)
Definition chunk_start (chunkSize nextIndex : Z) : Z := nextIndex * chunkSize.

Definition chunk_end (file : blob) (chunkSize nextIndex : Z) : Z :=
  Z.min (chunk_start chunkSize nextIndex + chunkSize) (size file).

Definition chunk_blob (file : blob) (chunkSize nextIndex : Z) : blob :=
  slice file (chunk_start chunkSize nextIndex) (chunk_end file chunkSize nextIndex).

(** Line 151; [uuid] is what [crypto.randomUUID()] returned. *)
Definition idempotencyKey (currentSessionId : string) (nextIndex : Z) (uuid : string) : string :=
  currentSessionId +:+ "-" +:+ String_ nextIndex +:+ "-" +:+ uuid.

(** Lines 147-152: the PUT a worker issues for the index it holds. *)
Definition chunk_request `{Platform} (r : run) (nextIndex : Z) (uuid : string) : request :=
  let blob := chunk_blob (bytes (file r)) (chunkSize r) nextIndex in
  let checksum := sha256HexFromBlob blob in
  uploadChunk_request (token r) (currentSessionId r) nextIndex blob checksum
    (idempotencyKey (currentSessionId r) nextIndex uuid).

(** A worker is suspended at one of its two [await]s, or has returned,
    or has thrown.  (Inside [uploadChunk] the [await response.text()] of a
    refused upload is folded into the settling of [fetch]: the reply
    carries the text.) *)
Inductive worker :=
| Hashing (nextIndex : Z)      (* await sha256HexFromBlob(blob) *)
| Uploading (nextIndex : Z)    (* await uploadChunk(...) *)
| Finished
| Thrown (e : exn).

(** The state shared by the workers of one run.  [claims] and [puts]
    record, in order, which worker took which index off the queue and
    which requests were handed to [fetch]; [rejection] is the first
    exception [Promise.all] sees. *)
Record pool := {
  uploadQueue : list Z;
  workers : list worker;
  uploaded : Z;
  claims : list (nat * Z);
  puts : list (Z * request);
  rejection : option exn
}.

(** Lines 142-146: the loop head, run without interruption. *)
Definition loop_head (w : nat) (p : pool) : worker * pool :=
  match uploadQueue p with
  | [] => (Finished, p)
  | nextIndex :: rest =>
      (Hashing nextIndex,
       {| uploadQueue := rest; workers := workers p; uploaded := uploaded p;
          claims := claims p ++ [(w, nextIndex)]; puts := puts p;
          rejection := rejection p |})
  end.

Definition set_worker (w : nat) (s : worker) (p : pool) : pool :=
  {| uploadQueue := uploadQueue p; workers := <[w := s]> (workers p);
     uploaded := uploaded p; claims := claims p; puts := puts p;
     rejection := rejection p |}.

(** Calling [uploadWorker()] runs it up to its first [await]. *)
Definition call_worker (p : pool) : pool :=
  let w := length (workers p) in
  let '(s, p') := loop_head w p in
  {| uploadQueue := uploadQueue p'; workers := workers p' ++ [s];
     uploaded := uploaded p'; claims := claims p'; puts := puts p';
     rejection := rejection p' |}.

(** Line 169: [Array.from({ length: Math.min(MAX_CONCURRENCY, uploadQueue.length) }, () => uploadWorker())] *)
Definition worker_count (queue : list Z) : nat :=
  Z.to_nat (Z.min MAX_CONCURRENCY (Z.of_nat (length queue))).

Definition start_pool (missing : list Z) (uploaded0 : Z) : pool :=
  Nat.iter (worker_count missing) call_worker
    {| uploadQueue := missing; workers := []; uploaded := uploaded0;
       claims := []; puts := []; rejection := None |}.

Definition throw_in (w : nat) (e : exn) (p : pool) : pool :=
  {| uploadQueue := uploadQueue p; workers := <[w := Thrown e]> (workers p);
     uploaded := uploaded p; claims := claims p; puts := puts p;
     rejection := Some (default e (rejection p)) |}.

(** What the browser does next: it settles one pending [await]. *)
Inductive settle (T : Type) :=
| Hashed (w : nat) (uuid : string)          (* the digest resolved; [uuid] is the next random UUID *)
| HashFailed (w : nat) (e : exn)            (* the digest rejected *)
| Fetched (w : nat) (reply : completion (response T)).
Arguments Hashed {T} w uuid.
Arguments HashFailed {T} w e.
Arguments Fetched {T} w reply.

(** One resumption of a worker, up to its next [await]: what it does to
    the state the workers share.  What it shows of it, lines 154-165, is
    [show_progress] below. *)
Definition step `{Platform} {T} (r : run) (ev : settle T) (p : pool) : option pool :=
  match ev with
  | Hashed w uuid =>
      match workers p !! w with
      | Some (Hashing nextIndex) =>
          Some {| uploadQueue := uploadQueue p;
                  workers := <[w := Uploading nextIndex]> (workers p);
                  uploaded := uploaded p; claims := claims p;
                  puts := puts p ++ [(nextIndex, chunk_request r nextIndex uuid)];
                  rejection := rejection p |}
      | _ => None
      end
  | HashFailed w e =>
      match workers p !! w with
      | Some (Hashing _) => Some (throw_in w e p)
      | _ => None
      end
  | Fetched w reply =>
      match workers p !! w with
      | Some (Uploading _) =>
          match uploadChunk reply with
          | Throw e => Some (throw_in w e p)
          | Return _ =>
              let p := {| uploadQueue := uploadQueue p; workers := workers p;
                          uploaded := uploaded p + 1; claims := claims p;
                          puts := puts p; rejection := rejection p |} in
              let '(s, p') := loop_head w p in
              Some (set_worker w s p')
          end
      | _ => None
      end
  end.

Fixpoint steps `{Platform} {T} (r : run) (evs : list (settle T)) (p : pool) : option pool :=
  match evs with
  | [] => Some p
  | ev :: evs => p' ← step r ev p; steps r evs p'
  end.

(** The await that settles is an upload that was accepted: line 152
    returns and the worker goes on to lines 153-165. *)
Definition accepts {T} (ev : settle T) : bool :=
  match ev with
  | Fetched _ reply =>
      match uploadChunk reply with Return _ => true | Throw _ => false end
  | _ => false
  end.

(** [await Promise.all(workers)]: rejected as soon as one worker throws,
    resolved once all have returned, pending otherwise. *)
Definition is_Finished (s : worker) : bool :=
  match s with Finished => true | _ => false end.

Definition promise_all (p : pool) : option (completion ()) :=
  match rejection p with
  | Some e => Some (Throw e)
  | None => if forallb is_Finished (workers p) then Some (Return ()) else None
  end.

(** *** [handleUpload]: finalize and completion, lines 172-200 *)

(** The component state this part of [handleUpload] writes, and the calls
    it makes: [notified] counts the calls of [onUploadComplete], [polled]
    the status requests sent. *)
Record view := {
  status : string;
  progressPercent : Z;
  finalizing : bool;
  fileId : option string;
  error : option string;
  notified : nat;
  polled : nat
}.

Definition STATUS_DONE : string := "アップロード完了".
Definition STATUS_ERROR : string := "エラーが発生しました".

(** Lines 185-187 and 192-194 *)
Definition report_done (v : view) : view :=
  {| status := STATUS_DONE; progressPercent := 100; finalizing := finalizing v;
     fileId := fileId v; error := error v; notified := S (notified v);
     polled := polled v |}.

(** The [catch] block, lines 195-200 *)
Definition report_error (e : exn) (v : view) : view :=
  {| status := STATUS_ERROR; progressPercent := 0; finalizing := finalizing v;
     fileId := fileId v; error := Some (message e); notified := notified v;
     polled := polled v |}.

Definition count_poll (v : view) : view :=
  {| status := status v; progressPercent := progressPercent v;
     finalizing := finalizing v; fileId := fileId v; error := error v;
     notified := notified v; polled := S (polled v) |}.

(** How the [for] loop of lines 181-190 is left. *)
Inductive loop_exit :=
| Returned (v : view)        (* the [return] of line 188 *)
| Exhausted (v : view)       (* [attempt] reached 60 *)
| Raised (e : exn) (v : view).

(** [remaining] iterations are left and [attempt] is the loop counter;
    [state_at attempt] is what [getSessionStatus] yields in that
    iteration. *)
Fixpoint poll_loop (remaining attempt : nat)
    (state_at : nat → completion SessionStatus) (v : view) : loop_exit :=
  match remaining with
  | O => Exhausted v
  | S remaining =>
      let v := count_poll v in
      match state_at attempt with
      | Throw e => Raised e v
      | Return state =>
          if bool_decide (session_status state = "completed")
          then Returned (report_done v)
          else poll_loop remaining (S attempt) state_at v
      end
  end.

Definition POLL_ATTEMPTS : nat := 60.

Definition exit_view (x : loop_exit) : view :=
  match x with Returned v | Exhausted v | Raised _ v => v end.

Definition finish_upload (finalized : completion FinalizeResult)
    (state_at : nat → completion SessionStatus) (v : view) : view :=
  let v := {| status := "Finalize 実行中…"; progressPercent := 90; finalizing := true;
              fileId := fileId v; error := error v; notified := notified v;
              polled := polled v |} in
  match finalized with
  | Throw e => report_error e v
  | Return finalizeResult =>
      let v := {| status := "ワーカーで結合処理中…"; progressPercent := progressPercent v;
                  finalizing := false; fileId := file_id finalizeResult;
                  error := error v; notified := notified v; polled := polled v |} in
      if negb (bool_decide (finalize_status finalizeResult = "completed")) then
        match poll_loop POLL_ATTEMPTS 0 state_at v with
        | Returned v => v
        | Raised e v => report_error e v
        | Exhausted v => report_done v
        end
      else report_done v
  end.

(** *** [handleUpload] as a whole, lines 104-201 *)

(** What the server and the browser do during one call: the answers to
    the session-create request and to the probe, the order in which the
    awaits of the pool settle, the answer to finalize and the answers to
    the status requests that follow. *)
Record world (T : Type) := {
  created : completion CreatedSession;
  probed : completion SessionStatus;
  settled : list (settle T);
  finalized : completion FinalizeResult;
  state_at : nat → completion SessionStatus
}.
Arguments created {T} _.
Arguments probed {T} _.
Arguments settled {T} _.
Arguments finalized {T} _.
Arguments state_at {T} _.

(** [await Promise.all(workers)]: the pool runs until the promise
    settles; [None] when the awaits listed do not get it that far. *)
Fixpoint await_pool `{Platform} {T} (r : run) (evs : list (settle T)) (p : pool)
    : option (completion ()) :=
  match promise_all p with
  | Some c => Some c
  | None =>
      match evs with
      | [] => None
      | ev :: evs => p' ← step r ev p; await_pool r evs p'
      end
  end.

Definition set_progressPercent (n : Z) (v : view) : view :=
  {| status := status v; progressPercent := n; finalizing := finalizing v;
     fileId := fileId v; error := error v; notified := notified v;
     polled := polled v |}.

(** Line 136: [total > 0 ? Math.round((uploaded / total) * 80) : 0] *)
Definition probe_percent (uploaded total : Z) : Z :=
  if 0 <? total then round (inject_Z uploaded / inject_Z total * inject_Z 80) else 0.

(** Line 165: [Math.min(80, Math.round((uploaded / total) * 80))], where
    [uploaded] has just been counted up and [total] is not negative; the
    quotient by a [total] of zero is [Infinity].  (The product is taken
    in the rationals; for the chunk counts of a file the floating-point
    product rounds to the same integer.) *)
Definition chunk_percent (uploaded total : Z) : Z :=
  if total =? 0 then 80
  else Z.min 80 (round (inject_Z uploaded / inject_Z total * inject_Z 80)).

(** Lines 153-165 as the component sees them: a worker whose chunk was
    accepted shows the percentage of the new count; [p'] is the pool
    after its step.  (The speed and the remaining time of lines 154-164
    come from the clock and are left out.) *)
Definition show_progress {T} (r : run) (ev : settle T) (p' : pool) (v : view) : view :=
  if accepts ev then set_progressPercent (chunk_percent (uploaded p') (total r)) v
  else v.

(** The pool and the component while the awaits listed settle, one after
    the other. *)
Fixpoint run_workers `{Platform} {T} (r : run) (evs : list (settle T))
    (p : pool) (v : view) : option (pool * view) :=
  match evs with
  | [] => Some (p, v)
  | ev :: evs => p' ← step r ev p; run_workers r evs p' (show_progress r ev p' v)
  end.

(** [await Promise.all(workers)] with the component in view: how the
    promise settles, the pool and the component at that moment, and the
    awaits still to settle. *)
Fixpoint await_workers `{Platform} {T} (r : run) (evs : list (settle T))
    (p : pool) (v : view)
    : option (completion () * pool * view * list (settle T)) :=
  match promise_all p with
  | Some c => Some (c, p, v, evs)
  | None =>
      match evs with
      | [] => None
      | ev :: evs =>
          p' ← step r ev p; await_workers r evs p' (show_progress r ev p' v)
      end
  end.

(** The component once the awaits of [settled w] have settled: [None]
    when they do not take [handleUpload] to its end.  A rejected
    [Promise.all] takes [handleUpload] to its [catch] at once, while the
    workers that have not thrown go on with the queue, and go on showing
    their progress.  (For a chunk size other than 0, whose quotient in
    line 112 is a number.) *)
Definition handleUpload `{Platform} {T}
    (token : string) (file : option File) (chunkSize : Z)
    (w : world T) (v : view) : option view :=
  match file with
  | None => Some v
  | Some file =>
      let v := {| status := "ハッシュ計算中…"; progressPercent := progressPercent v;
                  finalizing := finalizing v; fileId := fileId v; error := None;
                  notified := notified v; polled := polled v |} in
      let total := ceil_div (size (bytes file)) chunkSize in
      match created w with
      | Throw e => Some (report_error e v)
      | Return session =>
          let currentSessionId := upload_session_id session in
          match probed w with
          | Throw e => Some (report_error e v)
          | Return probe =>
              let missing := missing_of probe total in
              let uploaded := received_count probe in
              let v := {| status := "チャンク送信中…";
                          progressPercent := probe_percent uploaded total;
                          finalizing := finalizing v; fileId := fileId v;
                          error := error v; notified := notified v;
                          polled := polled v |} in
              let r := {| token := token; currentSessionId := currentSessionId;
                          file := file; chunkSize := chunkSize; total := total |} in
              match await_workers r (settled w) (start_pool missing uploaded) v with
              | None => None
              | Some (Throw e, p, v, rest) =>
                  snd <$> run_workers r rest p (report_error e v)
              | Some (Return _, _, v, _) =>
                  Some (finish_upload (finalized w) (state_at w) v)
              end
          end
      end
  end.

(** *** [handleCreateDownloadLink], lines 203-253 *)

Record link_form := {
  linkExpiresAt : string;
  linkNoExpiry : bool;
  linkRequirePage : bool;
  linkCreateShort : bool;
  linkPassword : string
}.

(** How far the handler gets before it awaits [createDownloadLink]. *)
Inductive link_attempt :=
| NoFile                                      (* line 205 *)
| FormError (linkFormError : string)          (* lines 221-222 *)
| Caught (error : string)                     (* thrown inside [try], lines 249-252 *)
| Send (req : request).

Definition FORM_ERROR : string :=
  "有効期限を指定するか「無期限にする」にチェックを入れてください".
Definition LINK_ERROR : string := "ダウンロードリンクの作成に失敗しました".

(** Lines 225-230, shared by both branches that reach them. *)
Definition link_options `{Platform} (form : link_form)
    (payload : gmap string jsval) : gmap string jsval :=
  let payload :=
    if truthy (Some (trim (linkPassword form)))
    then <["password" := VStr (trim (linkPassword form))]> payload
    else payload in
  let payload := <["require_download_page" := VBool (linkRequirePage form)]> payload in
  <["create_short_link" := VBool (linkCreateShort form)]> payload.

Definition create_link_attempt `{Platform}
    (token : string) (fileId : option string) (form : link_form) : link_attempt :=
  match fileId with
  | None => NoFile
  | Some fileId =>
      if negb (truthy (Some fileId)) then NoFile
      else if linkNoExpiry form then
        Send (createDownloadLink_request token fileId
                (link_options form (<["no_expiry" := VBool true]> ∅)))
      else if truthy (Some (linkExpiresAt form)) then
        match toISOString (linkExpiresAt form) with
        | None => Caught LINK_ERROR
        | Some iso =>
            Send (createDownloadLink_request token fileId
                    (link_options form (<["expires_at" := VStr iso]> ∅)))
        end
      else FormError FORM_ERROR
  end.

(** Lines 236-245: the links shown for the link just created.  The first
    component is [downloadLink], the second [downloadFallbackLink]. *)
Definition token_of_url `{Platform} (url : string) : string :=
  default "" (searchParamsGet (default "" (split "?" url !! 1%nat)) "token").

Definition downloadPath `{Platform}
    (fileId : string) (file : option File) (result : ApiDownloadLink) : string :=
  let tokenParam := token_of_url (link_url result) in
  let needsDownloadPage := require_download_page result || has_password result in
  if needsDownloadPage then
    "/share-download/" +:+ fileId +:+ "?token=" +:+ encodeURIComponent tokenParam +:+
    match file with
    | Some file => "&name=" +:+ encodeURIComponent (name file)
    | None => ""
    end
  else link_url result.

Definition shown_links `{Platform}
    (fileId : string) (file : option File) (result : ApiDownloadLink)
    : option string * option string :=
  let downloadPath := downloadPath fileId file result in
  let primaryPath := default downloadPath (short_url result) in
  let absolutePrimary := buildAbsoluteUrl (Some primaryPath) in
  let absoluteFallback :=
    if truthy (short_url result) then buildAbsoluteUrl (Some downloadPath) else None in
  (absolutePrimary, absoluteFallback).

(** The "never expires" checkbox, lines 337-342 *)
Definition linkNoExpiry_onChange (checked : bool) (form : link_form) : link_form :=
  {| linkExpiresAt := if checked then "" else linkExpiresAt form;
     linkNoExpiry := checked;
     linkRequirePage := linkRequirePage form;
     linkCreateShort := linkCreateShort form;
     linkPassword := linkPassword form |}.

(** The expiry input, line 326 *)
Definition linkExpiresAt_onChange (value : string) (form : link_form) : link_form :=
  {| linkExpiresAt := value;
     linkNoExpiry := linkNoExpiry form;
     linkRequirePage := linkRequirePage form;
     linkCreateShort := linkCreateShort form;
     linkPassword := linkPassword form |}.

End UploadManager.

(** ** components/FileManager.tsx *)

Module FileManager.
Import Js Api.

Record LinkFormState := {
  expiresAt : string;
  noExpiry : bool;
  requireDownloadPage : bool;
  createShortLink : bool;
  password : string
}.

Definition createDefaultFormState : LinkFormState :=
  {| expiresAt := ""; noExpiry := false; requireDownloadPage := false;
     createShortLink := false; password := "" |}.

(** [formatExpiration], lines 46-50; [toLocaleString] renders a date. *)
Definition formatExpiration (toLocaleString : string → string) (link : ApiDownloadLink) : string :=
  if never_expires link then "無期限"
  else if negb (truthy (expires_at link)) then "未設定"
  else toLocaleString (default "" (expires_at link)).

(** The component state [handleCreateLink] reads and writes. *)
Record state := {
  linkForms : gmap string LinkFormState;
  formErrors : gmap string (option string);
  pending : option string
}.

(** [baseDownloadUrl], lines 59-68 *)
Definition baseDownloadUrl `{Platform} : string :=
  let env := strip_trailing_slash <$> NEXT_PUBLIC_PUBLIC_BASE_URL in
  if truthy env then default "" env
  else default "" window_location_origin.

(** How far [handleCreateLink] (lines 137-180) gets before it awaits
    [createDownloadLink]. *)
Inductive link_attempt :=
| FormError (st : state)               (* lines 139-145 *)
| Raised (e : exn)                     (* [toISOString] threw, outside [try] *)
| Send (st : state) (req : request).

Definition FORM_ERROR : string :=
  "有効期限を指定するか「無期限」を選択してください".

(** Lines 155-160 *)
Definition link_options `{Platform} (form : LinkFormState)
    (payload : gmap string jsval) : gmap string jsval :=
  let payload :=
    if truthy (Some (trim (password form)))
    then <["password" := VStr (trim (password form))]> payload
    else payload in
  let payload := <["require_download_page" := VBool (requireDownloadPage form)]> payload in
  <["create_short_link" := VBool (createShortLink form)]> payload.

(** Lines 162-166 *)
Definition mark_pending (fileId : string) (st : state) : state :=
  {| linkForms := linkForms st;
     formErrors := <[fileId := None]> (formErrors st);
     pending := Some fileId |}.

Definition handleCreateLink `{Platform}
    (token fileId : string) (st : state) : link_attempt :=
  let form := default createDefaultFormState (linkForms st !! fileId) in
  if negb (noExpiry form) && negb (truthy (Some (expiresAt form))) then
    FormError {| linkForms := linkForms st;
                 formErrors := <[fileId := Some FORM_ERROR]> (formErrors st);
                 pending := pending st |}
  else
    let payload : option (gmap string jsval) :=
      if noExpiry form then Some (<["no_expiry" := VBool true]> ∅)
      else if truthy (Some (expiresAt form)) then
        iso ← toISOString (expiresAt form); Some (<["expires_at" := VStr iso]> ∅)
      else Some ∅ in
    match payload with
    | None => Raised (RangeError "Invalid time value")
    | Some payload =>
        Send (mark_pending fileId st)
             (createDownloadLink_request token fileId (link_options form payload))
    end.

(** The row of one link, lines 342-352: [absolutePrimary] and
    [absoluteFallback]. *)
Definition token_of_url `{Platform} (url : string) : string :=
  let query := default "" (split "?" url !! 1%nat) in
  default "" (searchParamsGet query "token").

Definition downloadPagePath `{Platform}
    (file_id filename : string) (link : ApiDownloadLink) : string :=
  let token := token_of_url (link_url link) in
  let needsDownloadPage := require_download_page link || has_password link in
  if needsDownloadPage then
    "/share-download/" +:+ file_id +:+ "?token=" +:+ encodeURIComponent token +:+
    "&name=" +:+ encodeURIComponent filename
  else link_url link.

Definition absolute `{Platform} (path : string) : string :=
  if truthy (Some baseDownloadUrl) then baseDownloadUrl +:+ path else path.

Definition link_row `{Platform}
    (file_id filename : string) (link : ApiDownloadLink) : string * option string :=
  let downloadPagePath := downloadPagePath file_id filename link in
  let shortUrl := short_url link in
  let primaryPath := default downloadPagePath shortUrl in
  let absolutePrimary := absolute primaryPath in
  let fallbackPath := if truthy (short_url link) then Some downloadPagePath else None in
  let absoluteFallback :=
    if truthy fallbackPath then absolute <$> fallbackPath else None in
  (absolutePrimary, absoluteFallback).

(** [toggleExpanded], lines 76-86 *)
Definition toggleExpanded (fileId : string) (prev : gset string) : gset string :=
  if decide (fileId ∈ prev) then prev ∖ {[fileId]} else {[fileId]} ∪ prev.

(** [Partial<LinkFormState>]: the fields an update names. *)
Record LinkFormUpdates := {
  set_expiresAt : option string;
  set_noExpiry : option bool;
  set_requireDownloadPage : option bool;
  set_createShortLink : option bool;
  set_password : option string
}.

Definition no_updates : LinkFormUpdates :=
  {| set_expiresAt := None; set_noExpiry := None; set_requireDownloadPage := None;
     set_createShortLink := None; set_password := None |}.

(** [{ ...existing, ...updates }] *)
Definition spread (existing : LinkFormState) (updates : LinkFormUpdates) : LinkFormState :=
  {| expiresAt := default (expiresAt existing) (set_expiresAt updates);
     noExpiry := default (noExpiry existing) (set_noExpiry updates);
     requireDownloadPage :=
       default (requireDownloadPage existing) (set_requireDownloadPage updates);
     createShortLink := default (createShortLink existing) (set_createShortLink updates);
     password := default (password existing) (set_password updates) |}.

(** [updateFormState], lines 88-96 *)
Definition updateFormState (fileId : string) (updates : LinkFormUpdates)
    (st : state) : state :=
  let existing := default createDefaultFormState (linkForms st !! fileId) in
  {| linkForms := <[fileId := spread existing updates]> (linkForms st);
     formErrors := formErrors st;
     pending := pending st |}.

(** [resetFormState], lines 98-107 *)
Definition resetFormState (fileId : string) (st : state) : state :=
  {| linkForms := <[fileId := createDefaultFormState]> (linkForms st);
     formErrors := <[fileId := None]> (formErrors st);
     pending := pending st |}.

(** The "never expires" checkbox of a file's form, lines 285-290; [form]
    is the form the row was rendered with. *)
Definition noExpiry_onChange (fileId : string) (checked : bool) (st : state) : state :=
  let form := default createDefaultFormState (linkForms st !! fileId) in
  updateFormState fileId
    {| set_expiresAt := Some (if checked then "" else expiresAt form);
       set_noExpiry := Some checked; set_requireDownloadPage := None;
       set_createShortLink := None; set_password := None |} st.

(** The expiry input of a file's form, lines 272-274 *)
Definition expiresAt_onChange (fileId value : string) (st : state) : state :=
  updateFormState fileId
    {| set_expiresAt := Some value; set_noExpiry := None;
       set_requireDownloadPage := None; set_createShortLink := None;
       set_password := None |} st.

(** [handleCreateLink] after the request has settled, lines 167-179;
    [st] is the state [handleCreateLink] left when it sent the request. *)
Definition CREATE_ERROR : string := "リンクの作成に失敗しました".

Definition handleCreateLink_settled {A} (fileId : string)
    (result : completion A) (st : state) : state :=
  let st :=
    match result with
    | Return _ => resetFormState fileId st
    | Throw e =>
        {| linkForms := linkForms st;
           formErrors := <[fileId := Some (or_else (message e) CREATE_ERROR)]> (formErrors st);
           pending := pending st |}
    end in
  {| linkForms := linkForms st; formErrors := formErrors st; pending := None |}.

End FileManager.

(** ** Runs of the worker pool *)

Module Run.
Import Js Api UploadManager.

(** The index a worker took off the queue and has not yet sent. *)
Definition holding (s : worker) : list Z :=
  match s with Hashing nextIndex => [nextIndex] | _ => [] end.

Definition hashing (ws : list worker) : list Z := ws ≫= holding.

(** The indices taken off the queue, and the indices sent, in order. *)
Definition claimed (p : pool) : list Z := (claims p).*2.
Definition sent (p : pool) : list Z := (puts p).*1.

(** The pool states a run can be in: the pool is started on the queue
    [missing], then the browser settles pending awaits one at a time. *)
Definition reachable `{Platform} (T : Type) (r : run)
    (missing : list Z) (uploaded0 : Z) (p : pool) : Prop :=
  ∃ evs : list (settle T), steps r evs (start_pool missing uploaded0) = Some p.

Record invariant `{Platform} (r : run) (missing : list Z) (p : pool) : Prop := {
  inv_queue : claimed p ++ uploadQueue p = missing;
  inv_owner : ∀ w i, (w, i) ∈ claims p → (w < length (workers p))%nat;
  inv_sent : sent p ++ hashing (workers p) ⊆+ claimed p;
  inv_all : rejection p = None → claimed p ≡ₚ sent p ++ hashing (workers p);
  inv_drained : Finished ∈ workers p → uploadQueue p = [];
  inv_puts : ∀ i req, (i, req) ∈ puts p → ∃ uuid, req = chunk_request r i uuid
}.

(** What a worker still has to wait for: two awaits while it hashes, one
    while it uploads. *)
Definition awaits (s : worker) : nat :=
  match s with Hashing _ => 2 | Uploading _ => 1 | _ => 0 end.

Definition work_left (p : pool) : nat :=
  2 * length (uploadQueue p) + sum_list (awaits <$> workers p).

(** The uploads in flight. *)
Definition in_flight (s : worker) : nat :=
  match s with Uploading _ => 1 | _ => 0 end.

Definition uploading (p : pool) : nat := sum_list (in_flight <$> workers p).

End Run.

(** ** app/page.tsx: the stored login *)

Module HomePage.
Import Js.

Definition LOCAL_STORAGE_KEY : string := "share-storage-auth".
Definition SESSION_STORAGE_KEY : string := "share-storage-auth-session".

Record StoredAuth := {
  token : string;
  expiresAt : string
}.

(** [window.localStorage] and [window.sessionStorage] *)
Record storage := {
  localStorage : gmap string string;
  sessionStorage : gmap string string
}.

Section Json.
(** [JSON.stringify(auth)], and [JSON.parse(raw)] followed by the two
    [typeof] checks: [None] when parsing throws or a field is not a
    string. *)
Context (stringify : StoredAuth → string) (parse : string → option StoredAuth).
(** [new Date(expiresAt) <= new Date()] *)
Context (expired : string → bool).

(** [parseStoredAuth], lines 27-38 *)
Definition parseStoredAuth (raw : option string) : option StoredAuth :=
  match raw with
  | None => None
  | Some raw => if bool_decide (raw = "") then None else parse raw
  end.

(** [storeAuth], lines 49-63 (in a browser, and while the stores accept
    the write) *)
Definition storeAuth (auth : StoredAuth) (remember : bool) (st : storage) : storage :=
  let serialized := stringify auth in
  if remember then
    {| localStorage := <[LOCAL_STORAGE_KEY := serialized]> (localStorage st);
       sessionStorage := delete SESSION_STORAGE_KEY (sessionStorage st) |}
  else
    {| localStorage := delete LOCAL_STORAGE_KEY (localStorage st);
       sessionStorage := <[SESSION_STORAGE_KEY := serialized]> (sessionStorage st) |}.

(** [clearStoredAuth], lines 65-69 *)
Definition clearStoredAuth (st : storage) : storage :=
  {| localStorage := delete LOCAL_STORAGE_KEY (localStorage st);
     sessionStorage := delete SESSION_STORAGE_KEY (sessionStorage st) |}.

(** [restoreAuth], lines 140-141: the stored login that is found. *)
Definition persistedAuth (st : storage) : option StoredAuth :=
  let sessionAuth := parseStoredAuth (sessionStorage st !! SESSION_STORAGE_KEY) in
  match sessionAuth with
  | Some auth => Some auth
  | None => parseStoredAuth (localStorage st !! LOCAL_STORAGE_KEY)
  end.

(** [restoreAuth], lines 138-155, when no token is held yet: the stores
    it leaves and the token it goes on to load data with;
    [loaded] tells whether [loadAllData] succeeds. *)
Definition restoreAuth (loaded : string → bool) (st : storage)
    : storage * option string :=
  match persistedAuth st with
  | None => (st, None)
  | Some persistedAuth =>
      if expired (expiresAt persistedAuth) then (clearStoredAuth st, None)
      else if loaded (token persistedAuth) then (st, Some (token persistedAuth))
      else (clearStoredAuth st, None)
  end.

End Json.

End HomePage.

(** ** Link-creation payloads *)

Module Link.
Import Api.

(** A payload names exactly one of the two expiry choices. *)
Definition one_expiry (payload : gmap string jsval) : Prop :=
  (payload !! "no_expiry" = Some (VBool true) ∧ payload !! "expires_at" = None)
  ∨ ((∃ iso, payload !! "expires_at" = Some (VStr iso)) ∧ payload !! "no_expiry" = None).

End Link.

(** ** A platform to run the definitions on

    The examples below need some browser.  This one stands in for it: its
    digest is a placeholder of the right length (the first 32 bytes of the
    zero-padded input), a date is taken to be valid when it is not empty,
    and the strings of the examples need no trimming and no escaping. *)

Module Sample.
Import Js.

Definition param_value (name piece : string) : option string :=
  if String.prefix (name +:+ "=") piece
  then Some (String.substring (String.length name + 1)
               (String.length piece - (String.length name + 1)) piece)
  else None.

Definition get_param (query name : string) : option string :=
  head (omap (param_value name) (split "&" query)).

Definition platform : Platform := {|
  sha256_digest b := take 32 (b ++ replicate 32 Byte.x00);
  toISOString s := if bool_decide (s = "") then None else Some (s +:+ ":00.000Z");
  trim s := s;
  encodeURIComponent s := s;
  searchParamsGet := get_param;
  NEXT_PUBLIC_API_BASE_URL := None;
  NEXT_PUBLIC_PUBLIC_BASE_URL := None;
  window_location_origin := Some "https://files.example"
|}.

Definition file : File :=
  {| name := "notes.txt"; type := "text/plain";
     bytes := [Byte.x01; Byte.x02; Byte.x03; Byte.x04; Byte.x05] |}.

(** One upload run: the five bytes above in chunks of two. *)
Definition upload : UploadManager.run :=
  {| UploadManager.token := "t"; UploadManager.currentSessionId := "s1";
     UploadManager.file := file; UploadManager.chunkSize := 2;
     UploadManager.total := 3 |}.

Definition accepted : completion (Api.response ()) :=
  Return {| Api.ok := true; Api.status := 200;
            Api.content_type := Some "application/json";
            Api.text := "{}"; Api.json := Return () |}.

Definition server_error : completion (Api.response ()) :=
  Return {| Api.ok := false; Api.status := 500; Api.content_type := None;
            Api.text := ""; Api.json := Throw (SyntaxError "Unexpected end of JSON input") |}.

(** A run in which every chunk is accepted. *)
Definition smooth_run : list (UploadManager.settle ()) :=
  [UploadManager.Hashed 1 "u1"; UploadManager.Hashed 0 "u0";
   UploadManager.Fetched 1 accepted; UploadManager.Hashed 2 "u2";
   UploadManager.Fetched 0 accepted; UploadManager.Fetched 2 accepted].

(** The same browser, with the public base URL configured. *)
Definition configured : Platform := {|
  sha256_digest := @sha256_digest platform;
  toISOString := @toISOString platform;
  trim := @trim platform;
  encodeURIComponent := @encodeURIComponent platform;
  searchParamsGet := get_param;
  NEXT_PUBLIC_API_BASE_URL := None;
  NEXT_PUBLIC_PUBLIC_BASE_URL := Some "https://cdn.example/";
  window_location_origin := Some "https://files.example"
|}.

(** The view before an upload, and a server that has just opened session
    s1 for the sample file. *)
Definition idle : UploadManager.view :=
  {| UploadManager.status := "ファイル準備完了"; UploadManager.progressPercent := 0;
     UploadManager.finalizing := false; UploadManager.fileId := None;
     UploadManager.error := None; UploadManager.notified := 0;
     UploadManager.polled := 0 |}.

Definition fresh_session : completion Api.CreatedSession :=
  Return {| Api.upload_session_id := "s1"; Api.accepted_chunk_size := 2;
            Api.session_expires_at := "2030-01-01T00:00:00Z" |}.

Definition nothing_received : completion Api.SessionStatus :=
  Return {| Api.received := []; Api.missing := [0; 1; 2];
            Api.session_status := "init" |}.

End Sample.

#[local] Existing Instance Sample.platform.

(** * Properties *)

(** ** Chunk geometry *)

Section ChunkGeometry.
Import Js UploadManager.

Lemma ceil_div_pos (a b : Z) :
  0 < b → ceil_div a b = - ((- a) `div` b).
Proof.
  intros Hb. unfold ceil_div, Qceiling, Qfloor.
  destruct b as [|p|p]; try lia.
  cbn. rewrite !Z.mul_1_r. reflexivity.
Qed.

(** [Math.ceil(a / b)] is the least integer [n] with [a ≤ n * b]. *)
Lemma ceil_div_bounds (a b : Z) :
  0 < b → (ceil_div a b - 1) * b < a ≤ ceil_div a b * b.
Proof.
  intros Hb. rewrite ceil_div_pos by done.
  pose proof (Z.div_mod (- a) b ltac:(lia)) as Hdm.
  pose proof (Z.mod_pos_bound (- a) b Hb) as Hm.
  nia.
Qed.

Lemma ceil_div_unique (a b n : Z) :
  0 < b → (n - 1) * b < a ≤ n * b → ceil_div a b = n.
Proof.
  intros Hb Hn. pose proof (ceil_div_bounds a b Hb). nia.
Qed.

Lemma ceil_div_nonneg (a b : Z) : 0 < b → 0 ≤ a → 0 ≤ ceil_div a b.
Proof. intros Hb Ha. pose proof (ceil_div_bounds a b Hb). nia. Qed.

Lemma size_nonneg (b : blob) : 0 ≤ size b.
Proof. unfold size. lia. Qed.

Lemma take_add_drop {A} (l : list A) (n m : nat) :
  take (n + m) l = take n l ++ take m (drop n l).
Proof.
  revert l. induction n as [|n IH]; intros [|x l]; simpl; try done.
  - by rewrite take_nil.
  - by rewrite IH.
Qed.

(** A chunk is at most [chunkSize] bytes starting at [i * chunkSize]; the
    clamping of [slice] makes it empty past the end of the file. *)
Lemma chunk_blob_take_drop (file : blob) (chunkSize i : Z) :
  0 < chunkSize → 0 ≤ i →
  chunk_blob file chunkSize i
  = take (Z.to_nat chunkSize) (drop (Z.to_nat (i * chunkSize)) file).
Proof.
  intros Hc Hi. unfold chunk_blob, slice, chunk_end, chunk_start, relative.
  pose proof (size_nonneg file) as Hs.
  assert (0 ≤ i * chunkSize) as Hst by nia.
  destruct (Z.ltb_spec (i * chunkSize) 0) as [|_]; [lia|].
  destruct (Z.ltb_spec (Z.min (i * chunkSize + chunkSize) (size file)) 0) as [|_]; [lia|].
  destruct (Z.le_gt_cases (size file) (i * chunkSize)) as [Hpast|Hin].
  - rewrite !drop_ge by (unfold size in *; lia).
    by rewrite !take_nil.
  - replace (Z.to_nat (Z.min (i * chunkSize) (size file)))
      with (Z.to_nat (i * chunkSize)) by lia.
    destruct (Z.le_gt_cases (i * chunkSize + chunkSize) (size file)) as [Hfull|Hlast].
    + f_equal. lia.
    + rewrite !take_ge; [done| |];
        rewrite length_drop; unfold size in *; lia.
Qed.

Lemma chunks_join_take (file : blob) (chunkSize : Z) (n : nat) :
  0 < chunkSize →
  mjoin (chunk_blob file chunkSize <$> (Z.of_nat <$> seq 0 n))
  = take (n * Z.to_nat chunkSize) file.
Proof.
  intros Hc. induction n as [|n IH]; [done|].
  rewrite seq_S, !fmap_app, join_app, IH. simpl.
  rewrite app_nil_r, chunk_blob_take_drop by lia.
  rewrite Nat.add_comm, take_add_drop.
  do 3 f_equal. lia.
Qed.

(** C1.  For every file and positive chunk size: chunk [i] holds exactly
    the file bytes from [i * chunkSize] up to
    [min ((i + 1) * chunkSize, file.size)]; every chunk but the last has
    [chunkSize] bytes; and joining chunks [0 .. totalChunks - 1] in
    ascending index order gives back the file. *)
Theorem chunk_partition (file : blob) (chunkSize : Z) :
  0 < chunkSize →
  let total := ceil_div (size file) chunkSize in
  (∀ i, 0 ≤ i < total →
     size (chunk_blob file chunkSize i)
       = Z.min ((i + 1) * chunkSize) (size file) - i * chunkSize
     ∧ ∀ k : nat, Z.of_nat k < size (chunk_blob file chunkSize i) →
         chunk_blob file chunkSize i !! k = file !! (Z.to_nat (i * chunkSize) + k)%nat)
  ∧ (∀ i, 0 ≤ i < total - 1 → size (chunk_blob file chunkSize i) = chunkSize)
  ∧ mjoin (chunk_blob file chunkSize <$> all_indices total) = file.
Proof.
  intros Hc total.
  pose proof (ceil_div_bounds (size file) chunkSize Hc) as Hb. fold total in Hb.
  pose proof (size_nonneg file) as Hs.
  assert (∀ i, 0 ≤ i < total →
            size (chunk_blob file chunkSize i)
            = Z.min ((i + 1) * chunkSize) (size file) - i * chunkSize) as Hlen.
  { intros i Hi. rewrite chunk_blob_take_drop by lia.
    unfold size in *. rewrite length_take, length_drop. nia. }
  split; [|split].
  - intros i Hi. split; [by apply Hlen|].
    intros k Hk. rewrite chunk_blob_take_drop in * by lia.
    unfold size in Hk. rewrite length_take in Hk.
    rewrite lookup_take_lt by lia. by rewrite lookup_drop.
  - intros i Hi. rewrite Hlen by lia. nia.
  - unfold all_indices. rewrite chunks_join_take by done.
    apply take_ge. unfold size in *. nia.
Qed.

Lemma chunk_partition_witness :
  let file : blob := [Byte.x01; Byte.x02; Byte.x03; Byte.x04; Byte.x05] in
  ceil_div (size file) 2 = 3
  ∧ chunk_blob file 2 <$> all_indices 3
    = [[Byte.x01; Byte.x02]; [Byte.x03; Byte.x04]; [Byte.x05]]
  ∧ mjoin (chunk_blob file 2 <$> all_indices (ceil_div (size file) 2)) = file.
Proof.
  split; [reflexivity|]. split; [reflexivity|].
  apply (chunk_partition [Byte.x01; Byte.x02; Byte.x03; Byte.x04; Byte.x05] 2).
  lia.
Defined.

End ChunkGeometry.

(** ** The session-create request *)

Section SessionCreate.
Import Js Api UploadManager.
Context `{Platform}.

(** C4.  The [total_chunks] field of the session-create request is
    [ceil (size / chunkSize)], the same number the component shows as
    [totalChunks]; 25 MiB in chunks of 8 MiB makes 4 chunks. *)
Theorem session_total_chunks (token : string) (file : File) (chunkSize : Z) :
  0 < chunkSize →
  (∃ payload n,
     body (init (session_request token file chunkSize)) = Some (BodyJson payload)
     ∧ payload !! "total_chunks" = Some (VNum n)
     ∧ n = totalChunks (Some file) chunkSize
     ∧ (n - 1) * chunkSize < size (bytes file) ≤ n * chunkSize)
  ∧ ceil_div (25 * 1024 * 1024) (8 * 1024 * 1024) = 4.
Proof.
  intros Hc. split; [|reflexivity].
  exists (session_payload file chunkSize), (ceil_div (size (bytes file)) chunkSize).
  split; [reflexivity|]. split.
  { unfold session_payload. by simplify_map_eq. }
  split; [reflexivity|]. by apply ceil_div_bounds.
Qed.

End SessionCreate.

Lemma session_total_chunks_witness :
  ∃ payload,
    Api.body (Api.init (UploadManager.session_request "t" Sample.file 2))
      = Some (Api.BodyJson payload)
    ∧ payload !! "total_chunks" = Some (Api.VNum 3).
Proof.
  destruct (session_total_chunks "t" Sample.file 2 ltac:(lia))
    as [(payload & n & Hbody & Htotal & Hn & _) _].
  exists payload. split; [exact Hbody|].
  rewrite Htotal, Hn. reflexivity.
Defined.

(** ** Strings *)

Lemma append_cons (c : ascii) (s1 s2 : string) :
  String c s1 +:+ s2 = String c (s1 +:+ s2).
Proof. reflexivity. Qed.

Lemma length_append (s1 s2 : string) :
  String.length (s1 +:+ s2) = (String.length s1 + String.length s2)%nat.
Proof.
  induction s1 as [|c s1 IH]; [done|].
  rewrite append_cons. simpl. by rewrite IH.
Qed.

Lemma append_inj_tail (s1 s2 u1 u2 : string) :
  String.length u1 = String.length u2 →
  s1 +:+ u1 = s2 +:+ u2 → u1 = u2.
Proof.
  revert s2. induction s1 as [|c s1 IH]; intros [|c' s2] Hlen Heq.
  - done.
  - change (u1 = String c' (s2 +:+ u2)) in Heq. subst u1.
    simpl in Hlen. rewrite length_append in Hlen. lia.
  - change (String c (s1 +:+ u1) = u2) in Heq. subst u2.
    simpl in Hlen. rewrite length_append in Hlen. lia.
  - rewrite !append_cons in Heq. simplify_eq. by eapply IH.
Qed.

Lemma append_assoc (s1 s2 s3 : string) :
  s1 +:+ (s2 +:+ s3) = (s1 +:+ s2) +:+ s3.
Proof.
  induction s1 as [|c s1 IH]; [done|].
  rewrite !append_cons. by rewrite IH.
Qed.

(** ** Hex strings and header lists *)

Section HexDigits.
Import Js Crypto.

Lemma bufferToHex_cons (b : Byte.byte) (buffer : blob) :
  bufferToHex (b :: buffer)
  = String (hex_digit (Byte.to_N b `div` 16)%N)
      (String (hex_digit (Byte.to_N b `mod` 16)%N) (bufferToHex buffer)).
Proof. reflexivity. Qed.

Lemma byte_digits_read_back (b : Byte.byte) :
  hex_value (hex_digit (Byte.to_N b `div` 16)%N) = Some (Byte.to_N b `div` 16)%N
  ∧ hex_value (hex_digit (Byte.to_N b `mod` 16)%N) = Some (Byte.to_N b `mod` 16)%N.
Proof. destruct b; split; reflexivity. Qed.

(** The digit [hex_digit] picks is the one at that place of the sixteen. *)
Lemma hex_digit_get (b : Byte.byte) :
  String.get (N.to_nat (Byte.to_N b `div` 16)) "0123456789abcdef"
  = Some (hex_digit (Byte.to_N b `div` 16)%N)
  ∧ String.get (N.to_nat (Byte.to_N b `mod` 16)) "0123456789abcdef"
    = Some (hex_digit (Byte.to_N b `mod` 16)%N).
Proof. destruct b; split; reflexivity. Qed.

Lemma bufferToHex_length (buffer : blob) :
  String.length (bufferToHex buffer) = (2 * length buffer)%nat.
Proof.
  induction buffer as [|b buffer IH]; [done|].
  rewrite bufferToHex_cons. simpl. rewrite IH. lia.
Qed.

(** Byte [k] of a buffer is written at the places [2k] and [2k+1] of its
    hex string: first the digit of its upper half, then that of its lower
    half. *)
Lemma bufferToHex_digits (buffer : blob) (k : nat) (b : Byte.byte) :
  buffer !! k = Some b →
  String.get (2 * k) (bufferToHex buffer)
  = String.get (N.to_nat (Byte.to_N b `div` 16)) "0123456789abcdef"
  ∧ String.get (2 * k + 1) (bufferToHex buffer)
    = String.get (N.to_nat (Byte.to_N b `mod` 16)) "0123456789abcdef".
Proof.
  revert k. induction buffer as [|x buffer IH]; intros k Hk; [done|].
  rewrite bufferToHex_cons. destruct k as [|k].
  - simpl in Hk. simplify_eq. destruct (hex_digit_get b) as [-> ->]. done.
  - replace (2 * S k)%nat with (S (S (2 * k))) by lia.
    replace (S (S (2 * k)) + 1)%nat with (S (S (2 * k + 1))) by lia.
    simpl String.get. by apply IH.
Qed.

Lemma Headers_get_set (h : Headers.t) (name value other : string) :
  Headers.get (Headers.set h name value) other
  = if decide (toLowerCase other = toLowerCase name) then Some value
    else Headers.get h other.
Proof.
  unfold Headers.get, Headers.set.
  destruct (decide (toLowerCase other = toLowerCase name)) as [->|Hne].
  - by rewrite lookup_insert_eq.
  - by rewrite lookup_insert_ne.
Qed.

End HexDigits.

(** ** The worker pool *)

Section Pool.
Import Js Api UploadManager Run.
Context `{Platform} {T : Type} (r : run).

Lemma hashing_snoc (ws : list worker) (s : worker) :
  hashing (ws ++ [s]) = hashing ws ++ holding s.
Proof. unfold hashing. rewrite bind_app. simpl. by rewrite app_nil_r. Qed.

Lemma hashing_insert (ws : list worker) (w : nat) (s s' : worker) :
  ws !! w = Some s →
  hashing (<[w := s']> ws) ++ holding s ≡ₚ hashing ws ++ holding s'.
Proof.
  intros Hw.
  rewrite insert_take_drop by (by eapply lookup_lt_Some).
  rewrite <- (take_drop_middle ws w s Hw) at 3.
  unfold hashing. rewrite !bind_app, !bind_cons.
  solve_Permutation.
Qed.

Lemma elem_of_insert_inv (ws : list worker) (w : nat) (s x : worker) :
  x ∈ <[w := s]> ws → x = s ∨ x ∈ ws.
Proof.
  intros [k Hk]%list_elem_of_lookup.
  destruct (decide (w = k)) as [->|Hne].
  - left. apply list_lookup_insert_Some in Hk.
    by destruct Hk as [(_ & -> & _)|[? _]].
  - right. rewrite list_lookup_insert_ne in Hk by done.
    by eapply list_elem_of_lookup_2.
Qed.

Lemma invariant_start (missing : list Z) (uploaded0 : Z) :
  invariant r missing
    {| uploadQueue := missing; workers := []; uploaded := uploaded0;
       claims := []; puts := []; rejection := None |}.
Proof.
  split; unfold claimed, sent; simpl; try done.
  - intros w i Hin. by apply elem_of_nil in Hin.
  - intros Hin. by apply elem_of_nil in Hin.
  - intros i req Hin. by apply elem_of_nil in Hin.
Qed.

Lemma invariant_call_worker (missing : list Z) (p : pool) :
  invariant r missing p → invariant r missing (call_worker p).
Proof.
  intros [Hq Ho Hs Ha Hd Hp]. unfold call_worker, loop_head.
  destruct (uploadQueue p) as [|i rest] eqn:Hqueue;
    split; unfold claimed, sent in *; simpl.
  - by rewrite Hqueue.
  - intros w i Hin. rewrite length_app. specialize (Ho w i Hin). lia.
  - by rewrite hashing_snoc, app_nil_r.
  - intros Hr. by rewrite hashing_snoc, app_nil_r, <- Ha.
  - by rewrite Hqueue.
  - done.
  - by rewrite fmap_app, <- app_assoc.
  - intros w j [Hin|Hin]%elem_of_app; rewrite length_app; simpl.
    + specialize (Ho w j Hin). lia.
    + apply list_elem_of_singleton in Hin. simplify_eq. lia.
  - rewrite hashing_snoc, fmap_app. simpl.
    rewrite (assoc_L (++)). by apply submseteq_app.
  - intros Hr. rewrite hashing_snoc, fmap_app. simpl.
    rewrite (assoc_L (++)). by rewrite <- Ha.
  - intros [Hin|Hin]%elem_of_app.
    + by specialize (Hd Hin).
    + by apply list_elem_of_singleton in Hin.
  - done.
Qed.

Lemma invariant_start_pool (missing : list Z) (uploaded0 : Z) :
  invariant r missing (start_pool missing uploaded0).
Proof.
  unfold start_pool. induction (worker_count missing) as [|n IH]; simpl.
  - apply invariant_start.
  - by apply invariant_call_worker.
Qed.

Lemma invariant_step (missing : list Z) (ev : settle T) (p p' : pool) :
  invariant r missing p → step r ev p = Some p' → invariant r missing p'.
Proof.
  intros [Hq Ho Hs Ha Hd Hp] Hstep.
  destruct ev as [w uuid|w e|w reply]; simpl in Hstep;
    destruct (workers p !! w) as [[i|i| |e']|] eqn:Hw; simplify_eq.
  - (* the digest resolved: the PUT is sent *)
    pose proof (hashing_insert _ _ _ (Uploading i) Hw) as Hh.
    simpl in Hh. rewrite app_nil_r in Hh.
    split; unfold claimed, sent in *; simpl; try done.
    + intros w' j Hin. rewrite length_insert. by eapply Ho.
    + rewrite fmap_app. simpl. rewrite <- Hs, <- Hh. solve_submseteq.
    + intros Hr. rewrite (Ha Hr), fmap_app. simpl. rewrite <- Hh.
      solve_Permutation.
    + intros [?|Hin]%elem_of_insert_inv; [done|]. by apply Hd.
    + intros j req [Hin|Hin]%elem_of_app; [by apply Hp|].
      apply list_elem_of_singleton in Hin. simplify_eq. by exists uuid.
  - (* the digest rejected *)
    pose proof (hashing_insert _ _ _ (Thrown e) Hw) as Hh.
    simpl in Hh. rewrite app_nil_r in Hh.
    split; unfold claimed, sent in *; simpl; try done.
    + intros w' j Hin. rewrite length_insert. by eapply Ho.
    + rewrite <- Hs, <- Hh. solve_submseteq.
    + intros [?|Hin]%elem_of_insert_inv; [done|]. by apply Hd.
  - (* the PUT settled *)
    destruct (uploadChunk reply) as [[]|e].
    + unfold loop_head in Hstep. simpl in Hstep.
      destruct (uploadQueue p) as [|j rest] eqn:Hqueue; simplify_eq.
      * pose proof (hashing_insert _ _ _ Finished Hw) as Hh.
        simpl in Hh. rewrite !app_nil_r in Hh.
        split; unfold claimed, sent in *; simpl; try done.
        -- intros w' j Hin. rewrite length_insert. by eapply Ho.
        -- by rewrite Hh.
        -- intros Hr. by rewrite Hh, <- Ha.
      * pose proof (hashing_insert _ _ _ (Hashing j) Hw) as Hh.
        simpl in Hh. rewrite !app_nil_r in Hh.
        split; unfold claimed, sent in *; simpl; try done.
        -- by rewrite fmap_app, <- app_assoc.
        -- intros w' k [Hin|Hin]%elem_of_app; rewrite length_insert.
           ++ by eapply Ho.
           ++ apply list_elem_of_singleton in Hin. simplify_eq.
              by eapply lookup_lt_Some.
        -- rewrite fmap_app, Hh. simpl. rewrite (assoc_L (++)).
           by apply submseteq_app.
        -- intros Hr. rewrite fmap_app, Hh. simpl.
           rewrite (assoc_L (++)). by rewrite <- Ha.
        -- intros [?|Hin]%elem_of_insert_inv; [done|]. by specialize (Hd Hin).
    + simplify_eq.
      pose proof (hashing_insert _ _ _ (Thrown e) Hw) as Hh.
      simpl in Hh. rewrite !app_nil_r in Hh.
      split; unfold claimed, sent in *; simpl; try done.
      * intros w' j Hin. rewrite length_insert. by eapply Ho.
      * by rewrite Hh.
      * intros [?|Hin]%elem_of_insert_inv; [done|]. by apply Hd.
Qed.

Lemma invariant_steps (missing : list Z) (evs : list (settle T)) (p p' : pool) :
  invariant r missing p → steps r evs p = Some p' → invariant r missing p'.
Proof.
  revert p. induction evs as [|ev evs IH]; intros p Hinv Hrun; simpl in Hrun.
  - by simplify_eq.
  - destruct (step r ev p) as [p1|] eqn:Hstep; simpl in Hrun; [|done].
    eapply IH; [|done]. by eapply invariant_step.
Qed.

Lemma reachable_invariant (missing : list Z) (uploaded0 : Z) (p : pool) :
  reachable T r missing uploaded0 p → invariant r missing p.
Proof.
  intros [evs Hrun]. eapply invariant_steps; [|done].
  apply invariant_start_pool.
Qed.

Lemma workers_call_worker (p : pool) :
  length (workers (call_worker p)) = S (length (workers p)).
Proof.
  unfold call_worker, loop_head.
  destruct (uploadQueue p); simpl; rewrite length_app; simpl; lia.
Qed.

Lemma workers_start_pool (missing : list Z) (uploaded0 : Z) :
  length (workers (start_pool missing uploaded0)) = worker_count missing.
Proof.
  unfold start_pool. induction (worker_count missing) as [|n IH]; [done|].
  simpl. by rewrite workers_call_worker, IH.
Qed.

Lemma workers_step (ev : settle T) (p p' : pool) :
  step r ev p = Some p' → length (workers p') = length (workers p).
Proof.
  intros Hstep.
  destruct ev as [w uuid|w e|w reply]; simpl in Hstep;
    destruct (workers p !! w) as [[i|i| |e']|]; simplify_eq;
    simpl; try by rewrite length_insert.
  destruct (uploadChunk reply) as [[]|e]; simplify_eq.
  - unfold loop_head in Hstep. simpl in Hstep.
    destruct (uploadQueue p); simplify_eq; simpl; by rewrite length_insert.
  - simpl. by rewrite length_insert.
Qed.

Lemma workers_reachable (missing : list Z) (uploaded0 : Z) (p : pool) :
  reachable T r missing uploaded0 p →
  length (workers p) = worker_count missing.
Proof.
  intros [evs Hrun]. rewrite <- (workers_start_pool missing uploaded0).
  revert Hrun. generalize (start_pool missing uploaded0).
  induction evs as [|ev evs IH]; intros p0 Hrun; simpl in Hrun.
  - by simplify_eq.
  - destruct (step r ev p0) as [p1|] eqn:Hstep; simpl in Hrun; [|done].
    rewrite (IH _ Hrun). by eapply workers_step.
Qed.

Lemma worker_count_min (missing : list Z) :
  worker_count missing = Nat.min 4 (length missing).
Proof. unfold worker_count, MAX_CONCURRENCY. lia. Qed.

Lemma hashing_all_finished (ws : list worker) :
  forallb is_Finished ws = true → hashing ws = [].
Proof.
  induction ws as [|[]]; simpl; intros Hall; try done.
  by apply IHws.
Qed.

(** When [Promise.all] resolves, the queue is empty and no worker holds
    an index. *)
Lemma resolved_drained (missing : list Z) (uploaded0 : Z) (p : pool) :
  reachable T r missing uploaded0 p →
  promise_all p = Some (Return ()) →
  rejection p = None ∧ uploadQueue p = [] ∧ hashing (workers p) = [].
Proof.
  intros Hreach Hres. unfold promise_all in Hres.
  destruct (rejection p) eqn:Hrej; [done|].
  destruct (forallb is_Finished (workers p)) eqn:Hall; [|done].
  split; [done|]. split; [|by apply hashing_all_finished].
  pose proof (reachable_invariant _ _ _ Hreach) as Hinv.
  destruct (workers p) as [|s ws] eqn:Hws.
  - pose proof (workers_reachable _ _ _ Hreach) as Hlen.
    rewrite Hws, worker_count_min in Hlen. simpl in Hlen.
    assert (missing = []) as -> by (destruct missing; [done|simpl in Hlen; lia]).
    pose proof (inv_queue _ _ _ Hinv) as Hq.
    by apply app_eq_nil in Hq as [_ ?].
  - apply (inv_drained _ _ _ Hinv). rewrite Hws.
    simpl in Hall. apply andb_true_iff in Hall as [Hs _].
    destruct s; try done. apply elem_of_cons; by left.
Qed.


Lemma NoDup_submseteq_inv {A} (l k : list A) : l ⊆+ k → NoDup k → NoDup l.
Proof.
  intros [k' Hk]%submseteq_Permutation Hnd.
  rewrite Hk in Hnd. by apply NoDup_app in Hnd as [? _].
Qed.

(** The queue the client makes up itself, [0 .. total - 1], has distinct
    entries. *)
Lemma all_indices_NoDup (total : Z) : NoDup (all_indices total).
Proof.
  unfold all_indices. apply NoDup_fmap; [apply _|]. apply NoDup_seq.
Qed.

(** On a queue of distinct indices no index is taken twice and none is
    sent twice. *)
Lemma reachable_NoDup (missing : list Z) (uploaded0 : Z) (p : pool) :
  NoDup missing →
  reachable T r missing uploaded0 p →
  NoDup (claimed p) ∧ NoDup (sent p).
Proof.
  intros Hnd Hreach.
  pose proof (reachable_invariant _ _ _ Hreach) as [Hq _ Hs _ _ _].
  assert (NoDup (claimed p)) as Hndc.
  { rewrite <- Hq in Hnd. by apply NoDup_app in Hnd as [? _]. }
  split; [done|].
  eapply NoDup_submseteq_inv; [|exact Hndc].
  etrans; [|exact Hs]. solve_submseteq.
Qed.


(** C2 (as amended).  The queue of a run is the probe's missing list when
    that list is not empty and all of [0 .. total - 1] when it is empty;
    every index sent comes from that queue, and a run that completes has
    sent each entry of the queue once. *)
Theorem uploads_follow_queue
    (probe : SessionStatus) (total uploaded0 : Z) (p : pool) :
  reachable T r (missing_of probe total) uploaded0 p →
  missing_of probe total
    = (if decide (missing probe = []) then all_indices total else missing probe)
  ∧ sent p ⊆+ missing_of probe total
  ∧ (promise_all p = Some (Return ()) → sent p ≡ₚ missing_of probe total).
Proof.
  intros Hreach.
  pose proof (reachable_invariant _ _ _ Hreach) as [Hq Ho Hs Ha Hd Hp].
  split; [|split].
  - unfold missing_of. by destruct (missing probe).
  - rewrite <- Hq. etrans; [|apply submseteq_inserts_r; exact Hs].
    solve_submseteq.
  - intros Hres.
    destruct (resolved_drained _ _ _ Hreach Hres) as (Hrej & Hempty & Hnone).
    rewrite <- Hq, Hempty, app_nil_r, (Ha Hrej), Hnone. by rewrite app_nil_r.
Qed.

(** C6.  Every request the pool hands to [fetch] is a PUT to the chunk
    endpoint of the session and the index.  [X-Chunk-Size] is the byte
    size of the chunk.  [X-Chunk-Checksum] is the SHA-256 digest of the
    bytes of the chunk written in hex: two characters per byte of the
    digest, the digit (of 0123456789abcdef) of the upper half of the byte
    and then that of its lower half.  [Idempotency-Key] is the session id,
    the index and the UUID drawn for this attempt, and the body is the
    chunk itself.  Another attempt, drawing another UUID (of the same
    length), has another key. *)
Theorem chunk_put_shape
    (missing : list Z) (uploaded0 : Z) (p : pool) (i : Z) (req : request) :
  reachable T r missing uploaded0 p →
  (i, req) ∈ puts p →
  let chunk := chunk_blob (bytes (file r)) (chunkSize r) i in
  let digest := sha256_digest chunk in
  ∃ uuid checksum,
    method (init req) = Some "PUT"
    ∧ url req = API_BASE_URL +:+ "/upload/sessions/" +:+ currentSessionId r
                  +:+ "/chunk/" +:+ String_ i
    ∧ Headers.get (headers (init req)) "X-Chunk-Size" = Some (String_ (size chunk))
    ∧ Headers.get (headers (init req)) "X-Chunk-Checksum" = Some checksum
    ∧ checksum = Crypto.bufferToHex digest
    ∧ String.length checksum = (2 * length digest)%nat
    ∧ (∀ (k : nat) (b : Byte.byte), digest !! k = Some b →
         String.get (2 * k) checksum
         = String.get (N.to_nat (Byte.to_N b `div` 16)) "0123456789abcdef"
         ∧ String.get (2 * k + 1) checksum
           = String.get (N.to_nat (Byte.to_N b `mod` 16)) "0123456789abcdef")
    ∧ Headers.get (headers (init req)) "Idempotency-Key"
        = Some (currentSessionId r +:+ "-" +:+ String_ i +:+ "-" +:+ uuid)
    ∧ body (init req) = Some (BodyBlob chunk)
    ∧ ∀ sid' i' uuid',
        String.length uuid' = String.length uuid →
        uuid' ≠ uuid →
        idempotencyKey sid' i' uuid' ≠ idempotencyKey (currentSessionId r) i uuid.
Proof.
  intros Hreach Hin chunk digest.
  pose proof (reachable_invariant _ _ _ Hreach) as [_ _ _ _ _ Hp].
  destruct (Hp i req Hin) as [uuid ->].
  exists uuid, (Crypto.bufferToHex digest).
  unfold chunk_request, uploadChunk_request, idempotencyKey, Crypto.sha256HexFromBlob.
  cbn [method url init headers body].
  rewrite !Headers_get_set.
  split; [done|]. split; [done|]. split; [done|]. split; [done|]. split; [done|].
  split; [apply bufferToHex_length|].
  split; [intros k b Hk; by apply bufferToHex_digits|].
  split; [done|]. split; [done|].
  intros sid' i' uuid' Hlen Hne Heq. apply Hne.
  rewrite !append_assoc in Heq. by eapply append_inj_tail.
Qed.

Lemma thrown_stays_thrown (ev : settle T) (p p' : pool) (w : nat) (e : exn) :
  workers p !! w = Some (Thrown e) →
  step r ev p = Some p' →
  workers p' !! w = Some (Thrown e).
Proof.
  intros Hw Hstep.
  assert (∀ w' s, workers p !! w' = Some s → s ≠ Thrown e →
            <[w' := s]> (workers p) !! w = Some (Thrown e)
            ∧ ∀ s', <[w' := s']> (workers p) !! w = Some (Thrown e)) as Hother.
  { intros w' s Hw' Hs.
    assert (w' ≠ w) by (intros ->; congruence).
    split; [|intros s']; by rewrite list_lookup_insert_ne. }
  destruct ev as [w' uuid|w' e'|w' reply]; simpl in Hstep;
    destruct (workers p !! w') as [[i|i| |e'']|] eqn:Hw'; simplify_eq; simpl.
  - by apply (Hother w' (Hashing i)).
  - by apply (Hother w' (Hashing i)).
  - destruct (uploadChunk reply) as [[]|e3]; simplify_eq.
    + unfold loop_head in Hstep. simpl in Hstep.
      destruct (uploadQueue p); simplify_eq; simpl;
        by apply (Hother w' (Uploading i)).
    + simpl. by apply (Hother w' (Uploading i)).
Qed.

Lemma thrown_stays_thrown_steps
    (evs : list (settle T)) (p p' : pool) (w : nat) (e : exn) :
  workers p !! w = Some (Thrown e) →
  steps r evs p = Some p' →
  workers p' !! w = Some (Thrown e).
Proof.
  revert p. induction evs as [|ev evs IH]; intros p Hw Hrun; simpl in Hrun.
  - by simplify_eq.
  - destruct (step r ev p) as [p1|] eqn:Hstep; simpl in Hrun; [|done].
    eapply IH; [|done]. by eapply thrown_stays_thrown.
Qed.

Lemma steps_one (ev : settle T) (p : pool) : steps r [ev] p = step r ev p.
Proof. unfold steps. by destruct (step r ev p). Qed.

(** Where [handleUpload] resumes after [await Promise.all(workers)], the
    pool is in a state some run reaches. *)
Lemma await_pool_settles (evs : list (settle T)) (p : pool) (c : completion ()) :
  await_pool r evs p = Some c →
  ∃ (evs' : list (settle T)) p',
    steps r evs' p = Some p' ∧ promise_all p' = Some c.
Proof.
  revert p. induction evs as [|ev evs IH]; intros p Hawait; simpl in Hawait.
  - destruct (promise_all p) as [c'|] eqn:Hp; simplify_eq.
    by exists [], p.
  - destruct (promise_all p) as [c'|] eqn:Hp; simplify_eq.
    + by exists [], p.
    + destruct (step r ev p) as [p1|] eqn:Hstep; simpl in Hawait; [|done].
      destruct (IH p1 Hawait) as (evs' & p' & Hrun & Hres).
      exists (ev :: evs'), p'. simpl. by rewrite Hstep.
Qed.

Lemma reachable_steps (missing : list Z) (uploaded0 : Z)
    (evs : list (settle T)) (p p' : pool) :
  reachable T r missing uploaded0 p →
  steps r evs p = Some p' →
  reachable T r missing uploaded0 p'.
Proof.
  intros [evs0 Hrun0] Hrun. exists (evs0 ++ evs).
  revert Hrun0. generalize (start_pool missing uploaded0).
  induction evs0 as [|ev evs0 IH]; intros p0 Hrun0; simpl in *.
  - by simplify_eq.
  - destruct (step r ev p0) as [p1|]; simpl in *; [|done]. by apply IH.
Qed.

(** The first exception of a run is the one [Promise.all] rejects with. *)
Lemma rejection_kept (evs : list (settle T)) (p p' : pool) (e : exn) :
  rejection p = Some e → steps r evs p = Some p' → rejection p' = Some e.
Proof.
  revert p. induction evs as [|ev evs IH]; intros p Hrej Hrun; simpl in Hrun.
  - by simplify_eq.
  - destruct (step r ev p) as [p1|] eqn:Hstep; simpl in Hrun; [|done].
    eapply IH; [|done]. clear Hrun IH.
    destruct ev as [w uuid|w e'|w reply]; simpl in Hstep;
      destruct (workers p !! w) as [[i|i| |e'']|]; simplify_eq; simpl;
      rewrite ?Hrej; try done.
    destruct (uploadChunk reply) as [[]|e']; simplify_eq; simpl;
      rewrite ?Hrej; [|done].
    unfold loop_head in Hstep. simpl in Hstep.
    by destruct (uploadQueue p); simplify_eq.
Qed.

(** C3 (as amended).  A chunk whose upload fails is not sent again.  The
    failure is thrown as it comes: an [Error] with the response text, or
    with "Chunk upload failed (status)" when the text is empty, for a
    response that is not ok, and the network error itself when [fetch]
    rejects.  The worker that held the chunk stops for good,
    [Promise.all] is rejected from then on (with this failure, when it is
    the first of the run), and in whatever the other workers still do no
    index is sent twice. *)
Theorem failed_chunk_surfaces_at_once
    (missing : list Z) (uploaded0 : Z) (p : pool)
    (w : nat) (i : Z) (reply : completion (response T)) :
  NoDup missing →
  reachable T r missing uploaded0 p →
  workers p !! w = Some (Uploading i) →
  (∀ resp, reply = Return resp → ok resp = false) →
  ∃ e p',
    uploadChunk reply = Throw e
    ∧ e = match reply with
          | Throw e => e
          | Return resp =>
              Error (if decide (text resp = "") then
                       "Chunk upload failed (" +:+ String_ (Api.status resp) +:+ ")"
                     else text resp)
          end
    ∧ step r (Fetched w reply) p = Some p'
    ∧ puts p' = puts p
    ∧ ∀ (evs : list (settle T)) p'', steps r evs p' = Some p'' →
        workers p'' !! w = Some (Thrown e)
        ∧ (∃ e0, promise_all p'' = Some (Throw e0)
                 ∧ (rejection p = None → e0 = e))
        ∧ NoDup (sent p'').
Proof.
  intros Hnd Hreach Hw Hfail.
  assert (∃ e, uploadChunk reply = Throw e
               ∧ e = match reply with
                     | Throw e => e
                     | Return resp =>
                         Error (if decide (text resp = "") then
                                  "Chunk upload failed (" +:+ String_ (Api.status resp) +:+ ")"
                                else text resp)
                     end) as (e & Hthrow & He).
  { destruct reply as [resp|e]; simpl; [|by eexists].
    unfold uploadChunk_response. rewrite (Hfail resp eq_refl). simpl.
    by eexists. }
  exists e, (throw_in w e p).
  assert (step r (Fetched w reply) p = Some (throw_in w e p)) as Hstep.
  { simpl. by rewrite Hw, Hthrow. }
  repeat split; try done.
  - eapply thrown_stays_thrown_steps; [|done]. simpl.
    apply list_lookup_insert_eq. by eapply lookup_lt_Some.
  - exists (default e (rejection p)).
    split; [|by intros ->].
    unfold promise_all.
    by rewrite (rejection_kept evs (throw_in w e p) p'' (default e (rejection p))).
  - assert (reachable T r missing uploaded0 p'') as Hreach''.
    { eapply reachable_steps; [|done].
      eapply (reachable_steps _ _ [Fetched w reply]); [done|].
      by rewrite steps_one. }
    by destruct (reachable_NoDup _ _ _ Hnd Hreach'') as [_ ?].
Qed.

End Pool.

(** *** The pool on the sample run *)

Section PoolExamples.
Import Js Api UploadManager Run.

Lemma smooth_run_reachable :
  ∃ p, steps Sample.upload Sample.smooth_run (start_pool [0; 1; 2] 0) = Some p
       ∧ promise_all p = Some (Return ())
       ∧ sent p = [1; 0; 2]
       ∧ claims p = [(0%nat, 0); (1%nat, 1); (2%nat, 2)]
       ∧ uploaded p = 3.
Proof. vm_compute. eexists. by repeat split. Qed.


(** C2 (as stated) fails: a probe that reports nothing missing for a
    three-chunk file makes the pool send all three chunks. *)
Lemma empty_probe_uploads_nothing_counterexample :
  let probe := {| received := [0; 1; 2]; missing := []; session_status := "uploading" |} in
  missing probe = []
  ∧ ∃ p, reachable () Sample.upload (missing_of probe 3) (received_count probe) p
         ∧ promise_all p = Some (Return ())
         ∧ sent p = [1; 0; 2].
Proof.
  split; [done|].
  assert (∃ p, steps Sample.upload Sample.smooth_run
                 (start_pool (missing_of
                    {| received := [0; 1; 2]; missing := []; session_status := "uploading" |} 3)
                    (received_count
                    {| received := [0; 1; 2]; missing := []; session_status := "uploading" |}))
               = Some p
             ∧ promise_all p = Some (Return ()) ∧ sent p = [1; 0; 2])
    as (p & Hrun & Hres & Hsent)
    by (vm_compute; eexists; by repeat split).
  exists p. split; [by exists Sample.smooth_run|done].
Qed.

Lemma uploads_follow_queue_witness :
  let probe := {| received := [1]; missing := [0; 2]; session_status := "uploading" |} in
  ∃ p, reachable () Sample.upload (missing_of probe 3) 1 p
       ∧ sent p ⊆+ [0; 2].
Proof.
  set (probe := {| received := [1]; missing := [0; 2]; session_status := "uploading" |}).
  assert (∃ p, steps Sample.upload
                 [Hashed 0 "u0"; Fetched 0 Sample.accepted] (start_pool [0; 2] 1)
               = Some p)
    as (p & Hrun) by (vm_compute; by eexists).
  assert (reachable () Sample.upload (missing_of probe 3) 1 p) as Hreach
    by (by exists [Hashed 0 "u0"; Fetched 0 Sample.accepted]).
  exists p. split; [done|].
  by destruct (uploads_follow_queue Sample.upload probe 3 1 p Hreach) as (_ & ? & _).
Defined.

(** C3 (as stated) fails: the one chunk of a run is answered with a 500;
    [Promise.all] rejects with the chunk's error at once, the chunk has
    been sent once, and nothing in the pool can run again. *)
Lemma failed_chunk_is_retried_counterexample :
  ∃ p, steps Sample.upload [Hashed 0 "u0"; Fetched 0 Sample.server_error]
         (start_pool [0] 0) = Some p
       ∧ promise_all p = Some (Throw (Error "Chunk upload failed (500)"))
       ∧ sent p = [0]
       ∧ ∀ ev : settle (), step Sample.upload ev p = None.
Proof.
  vm_compute. eexists. repeat split.
  by intros [[|w] uuid|[|w] e|[|w] reply].
Qed.

Lemma failed_chunk_surfaces_at_once_witness :
  ∃ p p',
    steps Sample.upload [Hashed (T := ()) 0 "u0"] (start_pool [0] 0) = Some p
    ∧ step Sample.upload (Fetched 0 Sample.server_error) p = Some p'
    ∧ promise_all p' = Some (Throw (Error "Chunk upload failed (500)"))
    ∧ NoDup (sent p').
Proof.
  assert (∃ p, steps Sample.upload [Hashed (T := ()) 0 "u0"] (start_pool [0] 0) = Some p
               ∧ workers p !! 0%nat = Some (Uploading 0)) as (p & Hrun & Hw)
    by (vm_compute; by eexists).
  assert (reachable () Sample.upload [0] 0 p) as Hreach by (by eexists).
  assert (NoDup [0]) as Hnd by (by apply (bool_decide_unpack (NoDup [0]))).
  destruct (failed_chunk_surfaces_at_once Sample.upload [0] 0 p 0 0
              Sample.server_error Hnd Hreach Hw)
    as (e & p' & Hthrow & He & Hstep & _ & Hlater).
  { intros resp Hresp. by injection Hresp as <-. }
  destruct (Hlater [] p' eq_refl) as (_ & _ & Hsent).
  exists p, p'. repeat split; try done.
  clear Hlater Hsent. vm_compute in Hrun. injection Hrun as <-.
  vm_compute in Hstep. injection Hstep as <-. reflexivity.
Defined.

Lemma chunk_put_shape_witness :
  ∃ p req checksum,
    reachable () Sample.upload [0; 1; 2] 0 p
    ∧ (2, req) ∈ puts p
    ∧ method (init req) = Some "PUT"
    ∧ url req = "/api/upload/sessions/s1/chunk/2"
    ∧ Headers.get (headers (init req)) "X-Chunk-Size" = Some "1"
    ∧ Headers.get (headers (init req)) "X-Chunk-Checksum" = Some checksum
    ∧ checksum = "0500000000000000000000000000000000000000000000000000000000000000"
    ∧ String.length checksum = 64%nat
    ∧ Headers.get (headers (init req)) "Idempotency-Key" = Some "s1-2-u2"
    ∧ body (init req) = Some (BodyBlob [Byte.x05]).
Proof.
  destruct smooth_run_reachable as (p & Hrun & _).
  assert (reachable () Sample.upload [0; 1; 2] 0 p) as Hreach
    by (by exists Sample.smooth_run).
  assert ((2, chunk_request Sample.upload 2 "u2") ∈ puts p) as Hin.
  { vm_compute in Hrun. injection Hrun as <-.
    apply elem_of_cons; right. apply elem_of_cons; right.
    apply elem_of_cons; by left. }
  destruct (chunk_put_shape Sample.upload [0; 1; 2] 0 p 2 _ Hreach Hin)
    as (uuid & checksum & Hm & Hurl & Hsize & Hck & Hhex & Hlen & _ & _ & Hbody & _).
  exists p, (chunk_request Sample.upload 2 "u2"), checksum.
  split; [done|]. split; [done|]. split; [done|]. split; [done|].
  split; [done|]. split; [done|].
  split; [by rewrite Hhex|].
  split; [by rewrite Hlen|].
  split; done.
Defined.

End PoolExamples.

(** ** Finalize and completion *)

Section Completion.
Import Js Api UploadManager.

Lemma poll_loop_exits (remaining attempt : nat)
    (state_at : nat → completion SessionStatus) (v : view) :
  (∀ k, ∃ state, state_at k = Return state) →
  match poll_loop remaining attempt state_at v with
  | Returned v' =>
      status v' = STATUS_DONE ∧ progressPercent v' = 100
      ∧ notified v' = S (notified v)
  | Exhausted v' => notified v' = notified v
  | Raised _ _ => False
  end.
Proof.
  intros Hreturns. revert attempt v.
  induction remaining as [|n IH]; intros attempt v; simpl; [done|].
  destruct (Hreturns attempt) as [state ->].
  destruct (bool_decide (session_status state = "completed")); [done|].
  apply (IH (S attempt) (count_poll v)).
Qed.

(** Whatever the session does after finalize, short of a failing
    request, the component ends in the "upload finished" state. *)
Lemma finish_upload_reports_done (finalizeResult : FinalizeResult)
    (state_at : nat → completion SessionStatus) (v : view) :
  (∀ k, ∃ state, state_at k = Return state) →
  let v' := finish_upload (Return finalizeResult) state_at v in
  status v' = STATUS_DONE ∧ progressPercent v' = 100
  ∧ notified v' = S (notified v).
Proof.
  intros Hreturns. unfold finish_upload. generalize POLL_ATTEMPTS. intros n.
  destruct (bool_decide (finalize_status finalizeResult = "completed")); simpl; [done|].
  match goal with |- context [poll_loop n ?a state_at ?v0] =>
    pose proof (poll_loop_exits n a state_at v0 Hreturns) as Hexit;
    destruct (poll_loop n a state_at v0) as [v1|v1|e v1] end.
  - done.
  - simpl in *. by rewrite Hexit.
  - done.
Qed.

Lemma poll_loop_bound (remaining attempt : nat)
    (state_at : nat → completion SessionStatus) (v : view) :
  (polled (exit_view (poll_loop remaining attempt state_at v))
   ≤ remaining + polled v)%nat.
Proof.
  revert attempt v. induction remaining as [|n IH]; intros attempt v; simpl; [lia|].
  destruct (state_at attempt) as [state|e]; simpl; [|lia].
  destruct (bool_decide (session_status state = "completed")); simpl; [lia|].
  specialize (IH (S attempt) (count_poll v)). simpl in IH. lia.
Qed.

(** The loop ends at the first status request that reports "completed" or
    is rejected. *)
Lemma poll_loop_first_exit (remaining attempt k : nat)
    (state_at : nat → completion SessionStatus) (v : view) :
  (k < remaining)%nat →
  (∀ j, (j < k)%nat →
     ∃ state, state_at (attempt + j)%nat = Return state
              ∧ session_status state ≠ "completed") →
  poll_loop remaining attempt state_at v
  = match state_at (attempt + k)%nat with
    | Throw e => Raised e (Nat.iter (S k) count_poll v)
    | Return state =>
        if bool_decide (session_status state = "completed")
        then Returned (report_done (Nat.iter (S k) count_poll v))
        else poll_loop (remaining - S k) (attempt + S k) state_at
               (Nat.iter (S k) count_poll v)
    end.
Proof.
  revert remaining attempt v.
  induction k as [|k IH]; intros remaining attempt v Hk Hbefore.
  - destruct remaining as [|n]; [lia|]. simpl.
    rewrite Nat.add_0_r, Nat.sub_0_r, Nat.add_1_r. reflexivity.
  - destruct remaining as [|n]; [lia|]. simpl poll_loop at 1.
    destruct (Hbefore 0%nat ltac:(lia)) as (state & Hstate & Hne).
    rewrite Nat.add_0_r in Hstate. rewrite Hstate.
    rewrite bool_decide_eq_false_2 by done.
    rewrite (IH n (S attempt) (count_poll v)) by
      (try lia; intros j Hj; specialize (Hbefore (S j) ltac:(lia));
       by rewrite Nat.add_succ_r in Hbefore).
    replace (S attempt + k)%nat with (attempt + S k)%nat by lia.
    replace (S attempt + S k)%nat with (attempt + S (S k))%nat by lia.
    replace (n - S k)%nat with (S n - S (S k))%nat by lia.
    rewrite <- !Nat.iter_succ_r. reflexivity.
Qed.

Lemma polled_iter (n : nat) (v : view) :
  polled (Nat.iter n count_poll v) = (n + polled v)%nat
  ∧ notified (Nat.iter n count_poll v) = notified v
  ∧ error (Nat.iter n count_poll v) = error v.
Proof. induction n as [|n (IH1 & IH2 & IH3)]; simpl; [done|]. by rewrite IH1. Qed.

(** C8.  The code breaks the claim on a session that fails: finalize
    answers "processing" and every status request afterwards answers
    "failed".  The loop of lines 181-190 only looks for "completed", so
    it asks sixty times, and lines 192-194 then report the upload as
    finished, at 100 percent, with no error, and call
    [onUploadComplete]. *)
Lemma failed_session_reported_finished :
  let finalized :=
    Return {| finalized_session_id := "s1"; file_id := None;
              finalize_status := "processing" |} in
  let state_at := λ _ : nat,
    Return {| received := [0; 1; 2]; missing := []; session_status := "failed" |} in
  let v := finish_upload finalized state_at
             {| status := "チャンク送信中…"; progressPercent := 80; finalizing := false;
                fileId := None; error := None; notified := 0; polled := 0 |} in
  status v = STATUS_DONE ∧ progressPercent v = 100 ∧ error v = None
  ∧ notified v = 1%nat ∧ polled v = 60%nat.
Proof. vm_compute. by repeat split. Qed.

(** X27.  When finalize returns a status other than "completed", the
    component asks for the session status at most sixty times; at the
    first answer "completed" it reports the upload as finished and calls
    [onUploadComplete] once; a status request that fails before that ends
    the upload with its error instead. *)
Theorem polling_until_completed (finalizeResult : FinalizeResult)
    (state_at : nat → completion SessionStatus) (v : view) :
  finalize_status finalizeResult ≠ "completed" →
  let v' := finish_upload (Return finalizeResult) state_at v in
  (polled v' ≤ 60 + polled v)%nat
  ∧ ∀ k, (k < 60)%nat →
      (∀ j, (j < k)%nat →
         ∃ state, state_at j = Return state ∧ session_status state ≠ "completed") →
      ((∃ state, state_at k = Return state ∧ session_status state = "completed") →
         status v' = STATUS_DONE ∧ progressPercent v' = 100
         ∧ notified v' = S (notified v) ∧ polled v' = (S k + polled v)%nat
         ∧ error v' = error v)
      ∧ (∀ e, state_at k = Throw e →
         status v' = STATUS_ERROR ∧ error v' = Some (message e)
         ∧ notified v' = notified v ∧ polled v' = (S k + polled v)%nat).
Proof.
  intros Hfin v'. unfold v', finish_upload.
  rewrite bool_decide_eq_false_2 by done. cbn [negb].
  match goal with |- context [poll_loop _ _ _ ?v0] => set (v0' := v0) end.
  assert (polled v0' = polled v ∧ notified v0' = notified v ∧ error v0' = error v)
    as (Hp0 & Hn0 & He0) by done.
  clearbody v0'. split.
  - pose proof (poll_loop_bound POLL_ATTEMPTS 0 state_at v0') as Hb.
    unfold POLL_ATTEMPTS in *.
    destruct (poll_loop 60 0 state_at v0'); simpl in *; lia.
  - intros k Hk Hbefore.
    rewrite (poll_loop_first_exit POLL_ATTEMPTS 0 k) by done. simpl Nat.add.
    destruct (polled_iter (S k) v0') as (Hp & Hn & He).
    split.
    + intros (state & -> & Hdone). rewrite bool_decide_eq_true_2 by done.
      cbn [report_done status progressPercent notified polled error].
      rewrite Hp, Hn, He, Hp0, Hn0, He0. done.
    + intros e ->.
      cbn [report_error status progressPercent notified polled error].
      rewrite Hp, Hn, Hp0, Hn0. done.
Qed.

Lemma polling_until_completed_witness :
  let finalized :=
    {| finalized_session_id := "s1"; file_id := Some "f1";
       finalize_status := "processing" |} in
  let state_at := λ attempt : nat,
    Return {| received := [0; 1; 2]; missing := [];
              session_status := if (attempt <? 2)%nat then "finalizing" else "completed" |} in
  let v := finish_upload (Return finalized) state_at
             {| status := "チャンク送信中…"; progressPercent := 80; finalizing := false;
                fileId := None; error := None; notified := 0; polled := 0 |} in
  status v = STATUS_DONE ∧ notified v = 1%nat ∧ polled v = 3%nat.
Proof.
  intros finalized state_at v.
  destruct (polling_until_completed finalized state_at
              {| status := "チャンク送信中…"; progressPercent := 80; finalizing := false;
                 fileId := None; error := None; notified := 0; polled := 0 |}
              ltac:(done)) as [_ Hfirst].
  destruct (Hfirst 2%nat ltac:(lia)) as [Hdone _].
  { intros j Hj. eexists. split; [reflexivity|].
    simpl. destruct j as [|[|j]]; simpl; [done|done|lia]. }
  destruct Hdone as (Hs & _ & Hn & Hp & _).
  { eexists. split; reflexivity. }
  by repeat split.
Defined.

End Completion.

(** ** [handleUpload] on the sample run *)

Section HandleUploadExamples.
Import Js Api UploadManager.

(** Every chunk is accepted and the second status request reports
    "completed". *)
Example handleUpload_completes :
  handleUpload "t" (Some Sample.file) 2
    {| created := Sample.fresh_session; probed := Sample.nothing_received;
       settled := Sample.smooth_run;
       finalized := Return {| finalized_session_id := "s1"; file_id := Some "f1";
                              finalize_status := "processing" |};
       state_at := λ attempt,
         Return {| received := [0; 1; 2]; missing := [];
                   session_status := if (attempt <? 1)%nat then "finalizing"
                                     else "completed" |} |}
    Sample.idle
  = Some {| status := STATUS_DONE; progressPercent := 100; finalizing := false;
            fileId := Some "f1"; error := None; notified := 1; polled := 2 |}.
Proof. reflexivity. Qed.

(** The first chunk to be answered is refused: the error is shown and
    finalize is never reached. *)
Example handleUpload_chunk_refused :
  handleUpload "t" (Some Sample.file) 2
    {| created := Sample.fresh_session; probed := Sample.nothing_received;
       settled := [Hashed 0 "u0"; Fetched 0 Sample.server_error];
       finalized := Throw (TypeError "Failed to fetch");
       state_at := λ _, Throw (TypeError "Failed to fetch") |}
    Sample.idle
  = Some {| status := STATUS_ERROR; progressPercent := 0; finalizing := false;
            fileId := None; error := Some "Chunk upload failed (500)";
            notified := 0; polled := 0 |}.
Proof. reflexivity. Qed.

End HandleUploadExamples.

(** ** [apiFetch] *)

Section ApiFetch.
Import Js Api.
Context {T : Type}.

(** C9 (as amended).  A response that is not ok makes [apiFetch] throw an
    [Error] with the body text, or with "Request failed (status)" when
    the body is empty.  An ok response gives the empty object on 204;
    otherwise, when [Content-Type] includes [application/json], the parsed
    body (or what [response.json()] throws when the body does not parse),
    and else the body text.  When [fetch] itself or the reading of the
    body rejects, [apiFetch] throws that error.  It throws in no other
    case, and nothing else than stated. *)
Theorem apiFetch_response_cases (reply : completion (response T)) :
  (∀ e, reply = Throw e → apiFetch reply = Throw e)
  ∧ (∀ r, reply = Return r →
       (ok r = false →
          apiFetch reply
          = Throw (Error (if decide (text r = "") then
                            "Request failed (" +:+ String_ (status r) +:+ ")"
                          else text r)))
       ∧ (ok r = true → status r = 204 → apiFetch reply = Return EmptyObject)
       ∧ (ok r = true → status r ≠ 204 →
          includes "application/json" (default "" (content_type r)) = true →
          apiFetch reply
          = match json r with Return v => Return (Json v) | Throw e => Throw e end)
       ∧ (ok r = true → status r ≠ 204 →
          includes "application/json" (default "" (content_type r)) = false →
          apiFetch reply = Return (Text (text r))))
  ∧ (∀ e, apiFetch reply = Throw e ↔
       reply = Throw e
       ∨ ∃ r, reply = Return r
              ∧ ((ok r = false
                  ∧ e = Error (if decide (text r = "") then
                                 "Request failed (" +:+ String_ (status r) +:+ ")"
                               else text r))
                 ∨ (ok r = true ∧ status r ≠ 204
                    ∧ includes "application/json" (default "" (content_type r)) = true
                    ∧ json r = Throw e))).
Proof.
  destruct reply as [r|e0].
  - split; [done|].
    assert (∀ e, (Return r : completion (response T)) = Throw e ↔ False) as Hno
      by done.
    unfold apiFetch, apiFetch_response, or_else.
    destruct (ok r) eqn:Hok; simpl.
    + destruct (Z.eqb_spec (status r) 204) as [H204|H204].
      * split.
        { intros ? [= <-]. rewrite Hok. cbn [negb].
          destruct (Z.eqb_spec (status r) 204); [|done]. by repeat split. }
        intros e. split; [done|].
        intros [?|(r' & [= <-] & [(? & _)|(_ & ? & _)])]; congruence.
      * destruct (includes "application/json" (default "" (content_type r))) eqn:Hct.
        -- split.
           { intros ? [= <-]. rewrite Hok. cbn [negb].
             destruct (Z.eqb_spec (status r) 204); [done|]. rewrite Hct.
             by repeat split. }
           intros e. split.
           ++ intros He. right. exists r. split; [done|]. right.
              repeat split; try done. by destruct (json r); simplify_eq.
           ++ intros [?|(r' & [= <-] & [(? & _)|(_ & _ & _ & ->)])];
                [done|congruence|done].
        -- split.
           { intros ? [= <-]. rewrite Hok. cbn [negb].
             destruct (Z.eqb_spec (status r) 204); [done|]. rewrite Hct.
             by repeat split. }
           intros e. split; [done|].
           intros [?|(r' & [= <-] & [(? & _)|(_ & _ & ? & _)])]; congruence.
    + split.
      { intros ? [= <-]. rewrite Hok. cbn [negb]. by repeat split. }
      intros e. split.
      * intros [= <-]. right. exists r. split; [done|]. by left.
      * intros [?|(r' & [= <-] & [(_ & ->)|(? & _)])]; [done|done|congruence].
  - split; [by intros ? [= <-]|]. split; [done|].
    intros e. split.
    + intros [= <-]. by left.
    + intros [[= <-]|(r & ? & _)]; done.
Qed.

End ApiFetch.

Section ApiFetchExamples.
Import Js Api.

(** C9 (as stated) fails: an ok response that announces JSON and whose
    body does not parse makes [apiFetch] throw. *)
Lemma apiFetch_throws_only_if_not_ok_counterexample :
  let r : response () :=
    {| ok := true; status := 200; content_type := Some "application/json";
       text := ""; json := Throw (SyntaxError "Unexpected end of JSON input") |} in
  ok r = true
  ∧ apiFetch (Return r) = Throw (SyntaxError "Unexpected end of JSON input").
Proof. by vm_compute. Qed.

Lemma apiFetch_response_cases_witness :
  let r : response () :=
    {| ok := false; status := 404; content_type := None; text := "";
       json := Throw (SyntaxError "Unexpected end of JSON input") |} in
  ok r = false ∧ apiFetch (Return r) = Throw (Error "Request failed (404)").
Proof.
  split; [reflexivity|].
  destruct (apiFetch_response_cases (T := ())
              (Return {| ok := false; status := 404; content_type := None;
                         text := "";
                         json := Throw (SyntaxError "Unexpected end of JSON input") |}))
    as (_ & Hcases & _).
  destruct (Hcases _ eq_refl) as (Hrefused & _).
  apply Hrefused. reflexivity.
Defined.

End ApiFetchExamples.

(** ** Link creation *)

Section LinkCreation.
Import Js Api Link.
Context `{Platform}.

Lemma upload_link_options_expiry (form : UploadManager.link_form)
    (payload : gmap string jsval) (key : string) :
  key = "no_expiry" ∨ key = "expires_at" →
  UploadManager.link_options form payload !! key = payload !! key.
Proof.
  intros Hkey. unfold UploadManager.link_options.
  destruct (truthy _); destruct Hkey as [->| ->]; by simplify_map_eq.
Qed.

Lemma files_link_options_expiry (form : FileManager.LinkFormState)
    (payload : gmap string jsval) (key : string) :
  key = "no_expiry" ∨ key = "expires_at" →
  FileManager.link_options form payload !! key = payload !! key.
Proof.
  intros Hkey. unfold FileManager.link_options.
  destruct (truthy _); destruct Hkey as [->| ->]; by simplify_map_eq.
Qed.

Lemma truthy_Some_false (s : string) : truthy (Some s) = false ↔ s = "".
Proof.
  unfold truthy. destruct (decide (s = "")) as [->|Hne].
  - done.
  - rewrite bool_decide_eq_false_2 by done. simpl. split; done.
Qed.

(** C7.  In the upload panel and in the file list alike: a link-creation
    request that is sent carries exactly one of [no_expiry] and
    [expires_at]; and when the form has neither the never-expires choice
    nor an expiry time, the handler stops with the validation message
    and sends nothing. *)
Theorem link_request_names_one_expiry
    (token : string) (fileId : string)
    (form : UploadManager.link_form) (st : FileManager.state) :
  fileId ≠ "" →
  (∀ req, UploadManager.create_link_attempt token (Some fileId) form
          = UploadManager.Send req →
     ∃ payload, body (init req) = Some (BodyJson payload) ∧ one_expiry payload)
  ∧ (UploadManager.linkNoExpiry form = false →
     UploadManager.linkExpiresAt form = "" →
     UploadManager.create_link_attempt token (Some fileId) form
     = UploadManager.FormError UploadManager.FORM_ERROR)
  ∧ (∀ st' req, FileManager.handleCreateLink token fileId st
                = FileManager.Send st' req →
     ∃ payload, body (init req) = Some (BodyJson payload) ∧ one_expiry payload)
  ∧ (let form := default FileManager.createDefaultFormState
                   (FileManager.linkForms st !! fileId) in
     FileManager.noExpiry form = false →
     FileManager.expiresAt form = "" →
     ∃ st', FileManager.handleCreateLink token fileId st = FileManager.FormError st'
            ∧ FileManager.formErrors st' !! fileId = Some (Some FileManager.FORM_ERROR)
            ∧ FileManager.linkForms st' = FileManager.linkForms st
            ∧ FileManager.pending st' = FileManager.pending st).
Proof.
  intros Hfile.
  assert (truthy (Some fileId) = true) as Hid.
  { destruct (truthy (Some fileId)) eqn:E; [done|]. by apply truthy_Some_false in E. }
  split; [|split; [|split]].
  - unfold UploadManager.create_link_attempt. rewrite Hid. simpl.
    intros req Hreq.
    destruct (UploadManager.linkNoExpiry form); simpl in Hreq.
    + simplify_eq. eexists. split; [reflexivity|]. left.
      rewrite !upload_link_options_expiry by auto. by simplify_map_eq.
    + destruct (truthy (Some (UploadManager.linkExpiresAt form))); simpl in Hreq; [|done].
      destruct (toISOString _) as [iso|]; simpl in Hreq; [|done].
      simplify_eq. eexists. split; [reflexivity|]. right.
      rewrite !upload_link_options_expiry by auto. simplify_map_eq. eauto.
  - intros Hno Hexp. unfold UploadManager.create_link_attempt.
    rewrite Hid, Hno, Hexp. reflexivity.
  - unfold FileManager.handleCreateLink. intros st' req Hreq.
    destruct (default _ _) as [exp no page short pw] eqn:Hform. simpl in Hreq.
    destruct no; simpl in Hreq.
    + simplify_eq. eexists. split; [reflexivity|]. left.
      rewrite !files_link_options_expiry by auto. by simplify_map_eq.
    + destruct (truthy (Some exp)); simpl in Hreq; [|done].
      destruct (toISOString exp) as [iso|]; simpl in Hreq; [|done].
      simplify_eq. eexists. split; [reflexivity|]. right.
      rewrite !files_link_options_expiry by auto. simplify_map_eq. eauto.
  - intros form' Hno Hexp. unfold FileManager.handleCreateLink.
    fold form'. rewrite Hno, Hexp. simpl.
    eexists. split; [reflexivity|]. simpl. by simplify_map_eq.
Qed.

End LinkCreation.

Section LinkCreationExamples.
Import Js Api.

Lemma link_request_names_one_expiry_witness :
  let form :=
    {| UploadManager.linkExpiresAt := ""; UploadManager.linkNoExpiry := false;
       UploadManager.linkRequirePage := true; UploadManager.linkCreateShort := false;
       UploadManager.linkPassword := "" |} in
  let st :=
    {| FileManager.linkForms := ∅; FileManager.formErrors := ∅;
       FileManager.pending := None |} in
  UploadManager.create_link_attempt "t" (Some "f1") form
    = UploadManager.FormError UploadManager.FORM_ERROR
  ∧ ∃ st', FileManager.handleCreateLink "t" "f1" st = FileManager.FormError st'.
Proof.
  intros form st.
  destruct (link_request_names_one_expiry "t" "f1" form st ltac:(done))
    as (_ & Hupload & _ & Hfiles).
  split; [by apply Hupload|].
  destruct Hfiles as (st' & Hst' & _); [done..|]. by exists st'.
Defined.

End LinkCreationExamples.

(** ** Link presentation *)

Section LinkPresentation.
Import Js Api.
Context `{Platform}.

Lemma truthy_Some_true (s : string) : s ≠ "" → truthy (Some s) = true.
Proof.
  intros Hne. destruct (truthy (Some s)) eqn:E; [done|].
  by apply truthy_Some_false in E.
Qed.

Lemma share_page_prefix (rest : string) :
  String.prefix "/share-download/" ("/share-download/" +:+ rest) = true.
Proof. cbn. by destruct rest. Qed.

Lemma share_page_nonempty (rest : string) : "/share-download/" +:+ rest ≠ "".
Proof. done. Qed.

(** C10.  For a created link (one that has a URL), in the file list and
    in the upload panel alike: the long URL is the share-download page of
    the file exactly when the link requires the download page or has a
    password, and the link's own URL otherwise; without a short URL the
    long URL is the one link shown; with a short URL the short URL is
    shown first and the long URL is kept as the fallback. *)
Theorem link_presentation
    (file_id filename : string) (file : option File) (link : ApiDownloadLink) :
  link_url link ≠ "" →
  let needs := require_download_page link || has_password link in
  let long_row := FileManager.downloadPagePath file_id filename link in
  let long_panel := UploadManager.downloadPath file_id file link in
  (if needs then
     long_row = "/share-download/" +:+ file_id +:+ "?token="
                +:+ encodeURIComponent (FileManager.token_of_url (link_url link))
                +:+ "&name=" +:+ encodeURIComponent filename
     ∧ long_panel = "/share-download/" +:+ file_id +:+ "?token="
                    +:+ encodeURIComponent (UploadManager.token_of_url (link_url link))
                    +:+ match file with
                        | Some file => "&name=" +:+ encodeURIComponent (name file)
                        | None => ""
                        end
   else long_row = link_url link ∧ long_panel = link_url link)
  ∧ (String.prefix "/share-download/" (link_url link) = false →
     (String.prefix "/share-download/" long_row = true ↔ needs = true)
     ∧ (String.prefix "/share-download/" long_panel = true ↔ needs = true))
  ∧ (short_url link = None →
     FileManager.link_row file_id filename link
       = (FileManager.absolute long_row, None)
     ∧ UploadManager.shown_links file_id file link
       = (UploadManager.buildAbsoluteUrl (Some long_panel), None))
  ∧ (∀ short, short_url link = Some short → short ≠ "" →
     FileManager.link_row file_id filename link
       = (FileManager.absolute short, Some (FileManager.absolute long_row))
     ∧ UploadManager.shown_links file_id file link
       = (UploadManager.buildAbsoluteUrl (Some short),
          UploadManager.buildAbsoluteUrl (Some long_panel))
     ∧ is_Some (UploadManager.buildAbsoluteUrl (Some long_panel))).
Proof.
  intros Hurl needs long_row long_panel.
  assert (long_row ≠ "" ∧ long_panel ≠ "") as [Hrow Hpanel].
  { unfold long_row, long_panel, FileManager.downloadPagePath, UploadManager.downloadPath.
    fold needs. destruct needs; [|done].
    split; apply share_page_nonempty. }
  split; [|split; [|split]].
  - unfold long_row, long_panel, FileManager.downloadPagePath, UploadManager.downloadPath.
    fold needs. by destruct needs.
  - intros Hdirect.
    unfold long_row, long_panel, FileManager.downloadPagePath, UploadManager.downloadPath.
    fold needs. destruct needs.
    + by rewrite !share_page_prefix.
    + by rewrite Hdirect.
  - intros Hshort.
    unfold FileManager.link_row, UploadManager.shown_links.
    fold long_row long_panel. by rewrite Hshort.
  - intros short Hshort Hne.
    unfold FileManager.link_row, UploadManager.shown_links.
    fold long_row long_panel. rewrite Hshort. simpl.
    rewrite (truthy_Some_true short Hne). simpl.
    rewrite (truthy_Some_true long_row Hrow).
    repeat split; try done.
    unfold UploadManager.buildAbsoluteUrl.
    rewrite (truthy_Some_true long_panel Hpanel). simpl.
    by destruct (is_http_url long_panel).
Qed.

End LinkPresentation.

Section LinkPresentationExamples.
Import Js Api.

Lemma link_presentation_witness :
  let link :=
    {| id := "l1"; link_url := "/d/f1?token=abc"; expires_at := None;
       download_count := 0; never_expires := true;
       require_download_page := false; has_password := true;
       short_url := Some "/s/xyz" |} in
  FileManager.link_row "f1" "notes.txt" link
  = ("https://files.example/s/xyz",
     Some "https://files.example/share-download/f1?token=abc&name=notes.txt")
  ∧ UploadManager.shown_links "f1" (Some Sample.file) link
    = (Some "https://files.example/s/xyz",
       Some "https://files.example/share-download/f1?token=abc&name=notes.txt").
Proof.
  intros link.
  destruct (link_presentation "f1" "notes.txt" (Some Sample.file) link ltac:(done))
    as (_ & _ & _ & Hshort).
  destruct (Hshort "/s/xyz" eq_refl ltac:(done)) as (Hrow & Hpanel & _).
  rewrite Hrow, Hpanel. split; reflexivity.
Defined.

End LinkPresentationExamples.

(** * Further properties of the code *)

(** ** lib/crypto.ts: [bufferToHex] *)

Section Hex.
Import Js Crypto.

(** X1.  The hex string of a buffer has two characters per byte, all of
    them lower-case hex digits. *)
Theorem bufferToHex_shape (buffer : blob) :
  String.length (bufferToHex buffer) = (2 * length buffer)%nat
  ∧ ∀ (k : nat) (c : ascii), String.get k (bufferToHex buffer) = Some c →
      In c (list_ascii_of_string "0123456789abcdef").
Proof.
  induction buffer as [|b buffer [IHlen IHchars]].
  - split; [done|]. by intros [|k] c.
  - rewrite bufferToHex_cons. split.
    + simpl. rewrite IHlen. lia.
    + intros [|[|k]] c Hget; simpl in Hget.
      * simplify_eq. destruct b; vm_compute; tauto.
      * simplify_eq. destruct b; vm_compute; tauto.
      * by eapply IHchars.
Qed.

(** X2.  Nothing of a buffer is lost in its hex string: reading the
    digits back gives the buffer, so two buffers with the same hex string
    are the same buffer. *)
Theorem bufferToHex_read_back (buffer : blob) :
  hexToBuffer (bufferToHex buffer) = Some buffer
  ∧ ∀ other : blob, bufferToHex other = bufferToHex buffer → other = buffer.
Proof.
  assert (∀ b : blob, hexToBuffer (bufferToHex b) = Some b) as Hback.
  { intros b. induction b as [|x b IH]; [done|].
    rewrite bufferToHex_cons. simpl.
    destruct (byte_digits_read_back x) as [-> ->]. simpl.
    replace (Byte.of_N (16 * (Byte.to_N x `div` 16) + Byte.to_N x `mod` 16)%N)
      with (Some x) by (by destruct x).
    simpl. by rewrite IH. }
  split; [done|].
  intros other Heq. apply (f_equal hexToBuffer) in Heq.
  rewrite !Hback in Heq. by simplify_eq.
Qed.

End Hex.

(** ** lib/api.ts: the requests of [apiFetch] *)

Section Requests.
Import Js Api.
Context `{Platform}.

Lemma prefix_append (s t : string) : String.prefix s (s +:+ t) = true.
Proof.
  induction s as [|c s IH]; [by destruct t|].
  rewrite append_cons. simpl. by destruct (ascii_dec c c).
Qed.

Lemma prefix_split (s h : string) :
  String.prefix s h = true ↔ ∃ post, h = s +:+ post.
Proof.
  split.
  - revert h. induction s as [|c s IH]; intros h Hp.
    + by exists h.
    + destruct h as [|c' h]; simpl in Hp; [done|].
      destruct (ascii_dec c c') as [->|]; [|done].
      destruct (IH h Hp) as [post ->]. by exists post.
  - intros [post ->]. apply prefix_append.
Qed.

Lemma includes_nil (needle : string) :
  includes needle "" = String.prefix needle "" || false.
Proof. reflexivity. Qed.

Lemma includes_cons (needle : string) (c : ascii) (hay : string) :
  includes needle (String c hay)
  = String.prefix needle (String c hay) || includes needle hay.
Proof. reflexivity. Qed.

(** [hay.includes(needle)] holds exactly when [needle] occurs in [hay]. *)
Lemma includes_occurs (needle hay : string) :
  includes needle hay = true ↔ ∃ pre post, hay = pre +:+ needle +:+ post.
Proof.
  split.
  - induction hay as [|c hay IH]; intros Hinc.
    + rewrite includes_nil, orb_false_r in Hinc.
      apply prefix_split in Hinc as [post Hpost]. by exists "", post.
    + rewrite includes_cons in Hinc.
      apply orb_true_iff in Hinc as [Hp|Hrest].
      * apply prefix_split in Hp as [post Hpost]. by exists "", post.
      * destruct (IH Hrest) as (pre & post & ->). by exists (String c pre), post.
  - intros (pre & post & ->). induction pre as [|c pre IH].
    + change ("" +:+ needle +:+ post) with (needle +:+ post).
      pose proof (prefix_append needle post) as Hp.
      destruct (needle +:+ post).
      * by rewrite includes_nil, Hp.
      * by rewrite includes_cons, Hp.
    + rewrite append_cons, includes_cons, IH. apply orb_true_r.
Qed.

Lemma Headers_has_get (h : Headers.t) (name : string) :
  Headers.has h name = bool_decide (is_Some (Headers.get h name)).
Proof. reflexivity. Qed.

Lemma Headers_get_append (h : Headers.t) (name value other : string) :
  Headers.get (Headers.append h name value) other
  = if decide (toLowerCase other = toLowerCase name)
    then Some (match Headers.get h other with
               | Some old => old +:+ ", " +:+ value
               | None => value
               end)
    else Headers.get h other.
Proof.
  unfold Headers.get, Headers.append.
  destruct (decide (toLowerCase other = toLowerCase name)) as [->|Hne].
  - by rewrite lookup_insert_eq.
  - by rewrite lookup_insert_ne.
Qed.

Lemma Headers_new_snoc (init : list (string * string)) (entry : string * string) :
  Headers.new (init ++ [entry]) = Headers.append (Headers.new init) entry.1 entry.2.
Proof. unfold Headers.new. by rewrite foldl_app. Qed.

(** What [get] finds in a new [Headers] object: the values the entries
    give under that name, however they spell it, joined in order. *)
Lemma Headers_get_new (init : list (string * string)) (name : string) :
  Headers.get (Headers.new init) name
  = match (filter (λ entry, toLowerCase entry.1 = toLowerCase name) init).*2 with
    | [] => None
    | value :: values => Some (foldl (λ acc v, acc +:+ ", " +:+ v) value values)
    end.
Proof.
  induction init as [|entry init IH] using rev_ind; [done|].
  rewrite Headers_new_snoc, Headers_get_append, filter_app, fmap_app, IH.
  rewrite filter_cons, filter_nil.
  destruct (decide (toLowerCase name = toLowerCase entry.1)) as [Heq|Hne].
  - rewrite decide_True by done. simpl.
    destruct ((filter _ init).*2) as [|value values]; simpl; [done|].
    by rewrite foldl_app.
  - rewrite decide_False by done. simpl. by rewrite app_nil_r.
Qed.

Lemma content_type_sent
    (path : string) (options : RequestInit (list (string * string)))
    (token : option string) :
  Headers.get (headers (init (apiFetch_request path options token))) "Content-Type"
  = match Headers.get (Headers.new (headers options)) "Content-Type" with
    | Some given => Some given
    | None =>
        match body options, method options with
        | Some BodyFormData, _ => None
        | _, None => None
        | _, Some m =>
            if decide (m = "" ∨ m = "GET") then None else Some "application/json"
        end
    end.
Proof.
  unfold apiFetch_request. cbn [init headers].
  assert (∀ h : Headers.t,
            Headers.get match token with
            | Some t => if truthy (Some t) then Headers.set h "Authorization" ("Bearer " +:+ t) else h
            | None => h
            end "Content-Type" = Headers.get h "Content-Type") as ->.
  { intros h. destruct token as [t|]; [|done].
    destruct (truthy (Some t)); [|done]. by rewrite Headers_get_set. }
  rewrite Headers_has_get.
  assert (∀ h : Headers.t,
            Headers.get (Headers.set h "Accept" "application/json") "Content-Type"
            = Headers.get h "Content-Type") as Hacc
    by (intros h; by rewrite Headers_get_set).
  rewrite Hacc.
  destruct (Headers.get (Headers.new (headers options)) "Content-Type")
    as [given|] eqn:Hgiven.
  - rewrite bool_decide_eq_true_2 by (by eexists).
    rewrite andb_false_r. simpl. by rewrite Hacc.
  - rewrite bool_decide_eq_false_2 by (by intros [? ?]).
    destruct (method options) as [m|] eqn:Hm.
    + assert (truthy (Some m) && negb (bool_decide (Some m = Some "GET"))
              = if decide (m = "" ∨ m = "GET") then false else true) as Hcond.
      { unfold truthy. destruct (decide (m = "" ∨ m = "GET")) as [[->| ->]|Hne].
        - done.
        - done.
        - rewrite !bool_decide_eq_false_2; [done| |]; naive_solver. }
      destruct (body options) as [[obj|b|]|]; simpl;
        rewrite ?Hcond; destruct (decide (m = "" ∨ m = "GET"));
        rewrite ?Headers_get_set, ?Hacc, ?Hgiven; done.
    + destruct (body options) as [[obj|b|]|]; simpl;
        rewrite ?andb_false_r; unfold truthy; simpl;
        rewrite ?Hacc, ?Hgiven; done.
Qed.

(** X3.  [apiFetch] never replaces a [Content-Type] its caller set,
    however the caller spelled the name of the header: what is sent is
    what the caller gave (the values of several such entries joined by a
    comma and a space).  When the caller set none, it adds
    [application/json] exactly when the body is not form data and the
    method is there, not empty and not "GET" (as spelled).  The header
    entries and the token are such that [Headers] takes them. *)
Theorem apiFetch_content_type
    (path : string) (options : RequestInit (list (string * string)))
    (token : option string) :
  forallb Headers.valid_entry (headers options) = true →
  (∀ t, token = Some t → t ≠ "" → Headers.valid_value ("Bearer " +:+ t) = true) →
  let given :=
    (filter (λ entry, toLowerCase entry.1 = "content-type") (headers options)).*2 in
  Headers.get (headers (init (apiFetch_request path options token))) "Content-Type"
  = match given with
    | value :: values => Some (foldl (λ acc v, acc +:+ ", " +:+ v) value values)
    | [] =>
        match body options, method options with
        | Some BodyFormData, _ => None
        | _, None => None
        | _, Some m =>
            if decide (m = "" ∨ m = "GET") then None else Some "application/json"
        end
    end.
Proof.
  intros _ _ given. rewrite content_type_sent, Headers_get_new.
  change (toLowerCase "Content-Type") with "content-type". fold given.
  by destruct given.
Qed.

(** X4.  Every call of lib/api.ts that goes through [apiFetch] asks the
    API base URL for JSON.  It carries [Authorization: Bearer token]
    exactly when it is made with a non-empty token (login and register
    never do); it carries a JSON [Content-Type] unless it is a GET, and a
    body only when it is a POST or a PATCH. *)
Theorem api_calls_headers (c : call) :
  let req := request_of c in
  String.prefix API_BASE_URL (url req) = true
  ∧ Headers.get (headers (init req)) "Accept" = Some "application/json"
  ∧ Headers.get (headers (init req)) "Authorization"
    = match token_of c with
      | Some t => if decide (t = "") then None else Some ("Bearer " +:+ t)
      | None => None
      end
  ∧ Headers.get (headers (init req)) "Content-Type"
    = (if decide (method (init req) = Some "GET") then None
       else Some "application/json")
  ∧ (is_Some (body (init req)) →
     method (init req) = Some "POST" ∨ method (init req) = Some "PATCH").
Proof.
  intros req. split; [|split; [|split; [|split]]].
  - destruct c; apply prefix_append.
  - destruct c; unfold req; simpl;
      unfold login_request, register_request, getCurrentUser_request,
        changePassword_request, createUploadSession_request,
        getSessionStatus_request, finalizeSession_request,
        createDownloadLink_request, listFiles_request, deleteFile_request,
        deleteDownloadLink_request, listUsers_request, adminCreateUser_request,
        adminUpdateUser_request, adminDeleteUser_request, apiFetch_request;
      cbn [init headers body method is_FormData negb andb];
      repeat match goal with |- context [truthy ?x] => destruct (truthy x) end;
      cbn [andb negb]; rewrite ?Headers_get_set; done.
  - destruct c; unfold req; simpl;
      unfold login_request, register_request, getCurrentUser_request,
        changePassword_request, createUploadSession_request,
        getSessionStatus_request, finalizeSession_request,
        createDownloadLink_request, listFiles_request, deleteFile_request,
        deleteDownloadLink_request, listUsers_request, adminCreateUser_request,
        adminUpdateUser_request, adminDeleteUser_request, apiFetch_request;
      cbn [init headers body method is_FormData negb andb token_of];
      try match goal with |- context [decide (?t = "")] =>
        destruct (decide (t = "")) as [->|Hne];
        [change (truthy (Some "")) with false|rewrite (truthy_Some_true t Hne)]
      end;
      repeat match goal with |- context [truthy ?x] => destruct (truthy x) end;
      cbn [andb negb]; rewrite ?Headers_get_set; done.
  - destruct c;
      unfold req, request_of, login_request, register_request,
        getCurrentUser_request, changePassword_request,
        createUploadSession_request, getSessionStatus_request,
        finalizeSession_request, createDownloadLink_request, listFiles_request,
        deleteFile_request, deleteDownloadLink_request, listUsers_request,
        adminCreateUser_request, adminUpdateUser_request, adminDeleteUser_request;
      rewrite content_type_sent; simpl; done.
  - destruct c; unfold req; simpl; intros [b Hb]; simplify_eq; auto.
Qed.

End Requests.

Section RequestsExamples.
Import Js Api.

(** A caller that sets its own type, spelled in lower case, keeps it. *)
Lemma apiFetch_content_type_witness :
  Headers.get
    (headers (init (apiFetch_request "/files/"
                      {| method := Some "POST";
                         headers := [("content-type", "text/plain")];
                         body := Some (BodyJson ∅) |}
                      (Some "t"))))
    "Content-Type"
  = Some "text/plain".
Proof.
  apply (apiFetch_content_type "/files/"
           {| method := Some "POST";
              headers := [("content-type", "text/plain")];
              body := Some (BodyJson ∅) |}
           (Some "t")).
  - reflexivity.
  - intros t [= <-] _. reflexivity.
Defined.

End RequestsExamples.

(** ** lib/api.ts: what [apiFetch] takes for JSON *)

Section JsonResponses.
Import Js Api.
Context {T : Type}.

(** X5.  For an ok response other than 204, [apiFetch] reads the body as
    JSON whenever [application/json] occurs anywhere in the
    [Content-Type] (so also with a charset parameter after it), and hands
    back the body text when it occurs nowhere or the header is missing. *)
Theorem apiFetch_json_content_types (r : response T) :
  ok r = true → status r ≠ 204 →
  ((∃ pre post, content_type r = Some (pre +:+ "application/json" +:+ post)) →
   apiFetch (Return r)
   = match json r with Return v => Return (Json v) | Throw e => Throw e end)
  ∧ ((∀ pre post, content_type r ≠ Some (pre +:+ "application/json" +:+ post)) →
     apiFetch (Return r) = Return (Text (text r))).
Proof.
  intros Hok Hstatus. unfold apiFetch, apiFetch_response.
  rewrite Hok. simpl.
  destruct (Z.eqb_spec (status r) 204) as [|_]; [done|].
  split.
  - intros (pre & post & ->). simpl.
    by rewrite (proj2 (includes_occurs _ _)) by eauto.
  - intros Hnowhere.
    destruct (includes "application/json" (default "" (content_type r))) eqn:Hinc;
      [|done].
    apply includes_occurs in Hinc as (pre & post & Hct).
    destruct (content_type r) as [ct|] eqn:Hsome; simpl in Hct.
    + subst ct. by destruct (Hnowhere pre post).
    + by destruct pre.
Qed.

End JsonResponses.

Section JsonResponsesExamples.
Import Js Api.

Lemma apiFetch_json_content_types_witness :
  apiFetch (Return {| ok := true; status := 200;
                      content_type := Some "application/json; charset=utf-8";
                      text := "[1]"; json := Return [1] |})
  = Return (Json [1]).
Proof.
  destruct (apiFetch_json_content_types
              {| ok := true; status := 200;
                 content_type := Some "application/json; charset=utf-8";
                 text := "[1]"; json := Return [1] |} eq_refl ltac:(done))
    as [Hjson _].
  apply Hjson. by exists "", "; charset=utf-8".
Defined.

End JsonResponsesExamples.

(** ** components/UploadManager.tsx: chunks out of range *)

Section ChunkEdges.
Import Js UploadManager.

(** X6.  For a positive chunk size and an index that is not negative,
    the chunk a worker cuts is empty exactly when the index is
    [totalChunks] or beyond: every chunk of the partition has at least
    one byte, an empty file has no chunk at all, and an index past the
    end gives an empty body rather than an error. *)
Theorem chunk_empty_iff_past_end (file : blob) (chunkSize i : Z) :
  0 < chunkSize → 0 ≤ i →
  (chunk_blob file chunkSize i = [] ↔ ceil_div (size file) chunkSize ≤ i)
  ∧ (ceil_div (size file) chunkSize = 0 ↔ file = []).
Proof.
  intros Hc Hi.
  pose proof (ceil_div_bounds (size file) chunkSize Hc) as Hb.
  pose proof (size_nonneg file) as Hs.
  split.
  - rewrite chunk_blob_take_drop by done.
    assert (take (Z.to_nat chunkSize) (drop (Z.to_nat (i * chunkSize)) file) = []
            ↔ (length file ≤ Z.to_nat (i * chunkSize))%nat) as ->.
    { split.
      - intros Hnil. apply (f_equal length) in Hnil.
        rewrite length_take, length_drop in Hnil. simpl in Hnil. lia.
      - intros Hlen. rewrite drop_ge by done. apply take_nil. }
    unfold size in *. split; intros Hle; nia.
  - split.
    + intros Hzero. rewrite Hzero in Hb. unfold size in *.
      destruct file; [done|simpl in *; lia].
    + intros ->. apply ceil_div_unique; [done|]. unfold size. simpl. lia.
Qed.

Lemma chunk_empty_iff_past_end_witness :
  let file : blob := [Byte.x01; Byte.x02; Byte.x03; Byte.x04; Byte.x05] in
  chunk_blob file 2 3 = [] ∧ chunk_blob file 2 2 ≠ [].
Proof.
  intros file.
  destruct (chunk_empty_iff_past_end file 2 3 ltac:(lia) ltac:(lia)) as [Hpast _].
  destruct (chunk_empty_iff_past_end file 2 2 ltac:(lia) ltac:(lia)) as [Hlast _].
  split.
  - apply Hpast. by vm_compute.
  - intros Hnil. apply Hlast in Hnil. by vm_compute in Hnil.
Defined.

End ChunkEdges.

(** ** URLs: the token of a link, the base URL, absolute links *)

Section Urls.
Import Js Api.
Context `{Platform}.

Lemma split_cons (sep c : ascii) (rest : string) :
  split sep (String c rest)
  = if decide (c = sep) then EmptyString :: split sep rest
    else match split sep rest with
         | [] => [String c EmptyString]
         | piece :: pieces => String c piece :: pieces
         end.
Proof. reflexivity. Qed.

Lemma includes_char_cons (sep c : ascii) (rest : string) :
  includes (String sep "") (String c rest) = false →
  c ≠ sep ∧ includes (String sep "") rest = false.
Proof.
  rewrite includes_cons. intros [Hp Hrest]%orb_false_iff. split; [|done].
  intros ->. simpl in Hp. destruct (ascii_dec sep sep); [|done]. by destruct rest.
Qed.

Lemma split_without (sep : ascii) (s : string) :
  includes (String sep "") s = false → split sep s = [s].
Proof.
  induction s as [|c s IH]; intros Hinc; [done|].
  apply includes_char_cons in Hinc as [Hne Hrest].
  rewrite split_cons, IH by done. by destruct (decide (c = sep)).
Qed.

Lemma split_at_first (sep : ascii) (s t : string) :
  includes (String sep "") s = false →
  split sep (s +:+ String sep t) = s :: split sep t.
Proof.
  induction s as [|c s IH]; intros Hinc.
  - change ("" +:+ String sep t) with (String sep t).
    rewrite split_cons. by destruct (decide (sep = sep)).
  - apply includes_char_cons in Hinc as [Hne Hrest].
    rewrite append_cons, split_cons, IH by done.
    by destruct (decide (c = sep)).
Qed.

(** X7.  The token of a link is read from the part of its URL between
    the first question mark and the next one: a URL without a question
    mark is searched as the empty query, and whatever follows a second
    question mark is not looked at.  Both components read it the same
    way. *)
Theorem token_of_url_query (path query rest : string) :
  includes "?" path = false → includes "?" query = false →
  UploadManager.token_of_url path = default "" (searchParamsGet "" "token")
  ∧ UploadManager.token_of_url (path +:+ "?" +:+ query)
    = default "" (searchParamsGet query "token")
  ∧ UploadManager.token_of_url (path +:+ "?" +:+ query +:+ "?" +:+ rest)
    = default "" (searchParamsGet query "token")
  ∧ ∀ url, FileManager.token_of_url url = UploadManager.token_of_url url.
Proof.
  intros Hpath Hquery.
  unfold UploadManager.token_of_url. repeat split.
  - by rewrite split_without.
  - change ("?" +:+ query) with (String "?" query).
    by rewrite split_at_first, split_without.
  - change ("?" +:+ query +:+ "?" +:+ rest) with (String "?" (query +:+ String "?" rest)).
    by rewrite !split_at_first.
Qed.

Lemma strip_cons (c : ascii) (rest : string) :
  strip_trailing_slash (String c rest)
  = if bool_decide (c = "/"%char) && bool_decide (rest = EmptyString) then EmptyString
    else String c (strip_trailing_slash rest).
Proof. reflexivity. Qed.

Lemma strip_one_slash (s : string) : strip_trailing_slash (s +:+ "/") = s.
Proof.
  induction s as [|c s IH]; [done|].
  rewrite append_cons, strip_cons, IH.
  rewrite (bool_decide_eq_false_2 (s +:+ "/" = "")) by (by destruct s).
  by rewrite andb_false_r.
Qed.

Lemma strip_no_slash (s : string) :
  (∀ t, s ≠ t +:+ "/") → strip_trailing_slash s = s.
Proof.
  induction s as [|c s IH]; intros Hend; [done|].
  rewrite strip_cons.
  destruct (bool_decide (c = "/"%char) && bool_decide (s = "")) eqn:Hlast.
  - apply andb_true_iff in Hlast as [->%bool_decide_eq_true ->%bool_decide_eq_true].
    by destruct (Hend "").
  - rewrite IH; [done|]. intros t ->. by destruct (Hend (String c t)).
Qed.

(** X8.  The base URL of the links is the configured public base URL
    without its one trailing slash; when none is configured, or what is
    configured is empty or just a slash, it is the origin of the window
    (or empty without a window).  Both components compute the same. *)
Theorem baseDownloadUrl_cases :
  (∀ s, s ≠ "" → NEXT_PUBLIC_PUBLIC_BASE_URL = Some (s +:+ "/") →
        UploadManager.baseDownloadUrl = s)
  ∧ (∀ s, s ≠ "" → (∀ t, s ≠ t +:+ "/") → NEXT_PUBLIC_PUBLIC_BASE_URL = Some s →
          UploadManager.baseDownloadUrl = s)
  ∧ (NEXT_PUBLIC_PUBLIC_BASE_URL = None ∨ NEXT_PUBLIC_PUBLIC_BASE_URL = Some ""
     ∨ NEXT_PUBLIC_PUBLIC_BASE_URL = Some "/" →
     UploadManager.baseDownloadUrl = default "" window_location_origin)
  ∧ FileManager.baseDownloadUrl = UploadManager.baseDownloadUrl.
Proof.
  unfold UploadManager.baseDownloadUrl. repeat split.
  - intros s Hs ->. simpl. rewrite strip_one_slash.
    by rewrite (truthy_Some_true s Hs).
  - intros s Hs Hend ->. simpl. rewrite strip_no_slash by done.
    by rewrite (truthy_Some_true s Hs).
  - intros [->|[->| ->]]; reflexivity.
Qed.

Lemma toLowerCase_append (s t : string) :
  toLowerCase (s +:+ t) = toLowerCase s +:+ toLowerCase t.
Proof.
  induction s as [|c s IH]; [done|].
  rewrite append_cons. simpl. by rewrite IH.
Qed.

Lemma is_http_url_append (s t : string) :
  is_http_url s = true → is_http_url (s +:+ t) = true.
Proof.
  unfold is_http_url. rewrite toLowerCase_append.
  intros [Hp|Hp]%orb_true_iff; apply prefix_split in Hp as [post ->];
    rewrite <- append_assoc, prefix_append; [done|apply orb_true_r].
Qed.

(** X9.  When the base URL is empty or is itself an http(s) URL, making
    a link absolute twice is the same as making it absolute once: the
    base is never put in front of a link that already has it. *)
Theorem buildAbsoluteUrl_idempotent (pathOrUrl : option string) :
  UploadManager.baseDownloadUrl = "" ∨ is_http_url UploadManager.baseDownloadUrl = true →
  UploadManager.buildAbsoluteUrl (UploadManager.buildAbsoluteUrl pathOrUrl)
  = UploadManager.buildAbsoluteUrl pathOrUrl.
Proof.
  intros Hbase. unfold UploadManager.buildAbsoluteUrl.
  destruct pathOrUrl as [p|]; [|done].
  destruct (truthy (Some p)) eqn:Hp; simpl; [|done].
  destruct (is_http_url p) eqn:Hhttp; simpl.
  - by rewrite Hp, Hhttp.
  - destruct Hbase as [->|Hbase].
    + replace (truthy (Some "")) with false by done. simpl. by rewrite Hp, Hhttp.
    + assert (UploadManager.baseDownloadUrl ≠ "") as Hne
        by (intros Heq; by rewrite Heq in Hbase).
      rewrite (truthy_Some_true _ Hne). simpl.
      rewrite truthy_Some_true
        by (destruct UploadManager.baseDownloadUrl; [done|by rewrite append_cons]).
      simpl. by rewrite is_http_url_append.
Qed.

(** X10.  For a link that is not empty and not an http(s) URL the upload
    panel and the file list show the same absolute URL.  For an http(s)
    URL they differ as soon as the base URL is not empty: the panel
    shows it as it is, the file list puts the base in front of it. *)
Theorem absolute_url_agreement (p : string) :
  p ≠ "" →
  (is_http_url p = false →
   UploadManager.buildAbsoluteUrl (Some p) = Some (FileManager.absolute p))
  ∧ (is_http_url p = true →
     UploadManager.buildAbsoluteUrl (Some p) = Some p
     ∧ (FileManager.baseDownloadUrl ≠ "" → FileManager.absolute p ≠ p)).
Proof.
  intros Hp. unfold UploadManager.buildAbsoluteUrl, FileManager.absolute.
  rewrite (truthy_Some_true p Hp). simpl. split.
  - intros ->. reflexivity.
  - intros ->. split; [done|]. intros Hbase.
    rewrite (truthy_Some_true _ Hbase). intros Heq.
    apply (f_equal String.length) in Heq. rewrite length_append in Heq.
    destruct FileManager.baseDownloadUrl; [done|simpl in Heq; lia].
Qed.

End Urls.

Section UrlsExamples.
Import Js Api.

Lemma token_of_url_query_witness :
  UploadManager.token_of_url "/d/f1?token=abc?x=1" = "abc"
  ∧ UploadManager.token_of_url "/d/f1" = "".
Proof.
  destruct (token_of_url_query "/d/f1" "token=abc" "x=1" eq_refl eq_refl)
    as (Hnone & _ & Htwice & _).
  split; [exact Htwice|exact Hnone].
Defined.

Lemma baseDownloadUrl_cases_witness :
  @UploadManager.baseDownloadUrl Sample.configured = "https://cdn.example"
  ∧ @UploadManager.baseDownloadUrl Sample.platform = "https://files.example".
Proof.
  destruct (@baseDownloadUrl_cases Sample.configured) as (Hslash & _).
  destruct (@baseDownloadUrl_cases Sample.platform) as (_ & _ & Hnone & _).
  split.
  - by apply Hslash.
  - rewrite Hnone by (by left). reflexivity.
Defined.

Lemma buildAbsoluteUrl_idempotent_witness :
  UploadManager.buildAbsoluteUrl (UploadManager.buildAbsoluteUrl (Some "/s/xyz"))
  = Some "https://files.example/s/xyz".
Proof.
  rewrite (buildAbsoluteUrl_idempotent (Some "/s/xyz")) by (by right).
  reflexivity.
Defined.

Lemma absolute_url_agreement_witness :
  UploadManager.buildAbsoluteUrl (Some "/s/xyz") = Some (FileManager.absolute "/s/xyz")
  ∧ FileManager.absolute "https://short.example/xyz" ≠ "https://short.example/xyz".
Proof.
  destruct (absolute_url_agreement "/s/xyz" ltac:(done)) as [Hrel _].
  destruct (absolute_url_agreement "https://short.example/xyz" ltac:(done))
    as [_ Habs].
  split; [by apply Hrel|].
  by apply Habs.
Defined.

End UrlsExamples.

(** ** The worker pool: start, progress, length of a run *)

Section PoolRuns.
Import Js Api UploadManager Run.
Context `{Platform} {T : Type} (r : run).

Lemma sum_app (l k : list nat) : sum_list (l ++ k) = (sum_list l + sum_list k)%nat.
Proof. induction l as [|x l IH]; simpl; [done|]. rewrite IH. lia. Qed.

Lemma sum_insert (f : worker → nat) (ws : list worker) (w : nat) (s s' : worker) :
  ws !! w = Some s →
  (sum_list (f <$> <[w := s']> ws) + f s = sum_list (f <$> ws) + f s')%nat.
Proof.
  intros Hw.
  rewrite insert_take_drop by (by eapply lookup_lt_Some).
  rewrite <- (take_drop_middle ws w s Hw) at 3.
  rewrite !fmap_app, !fmap_cons, !sum_app. simpl. lia.
Qed.

Lemma all_finished (ws : list worker) (s : worker) :
  forallb is_Finished ws = true → s ∈ ws → s = Finished.
Proof.
  induction ws as [|s' ws IH]; simpl; intros Hall Hin.
  - by apply elem_of_nil in Hin.
  - apply andb_true_iff in Hall as [Hs' Hws].
    apply elem_of_cons in Hin as [->|Hin]; [by destruct s'|by apply IH].
Qed.

(** X11.  The queue of a run is empty only when the probe reports nothing
    missing and the file has no chunk.  On an empty queue the pool starts
    no worker, sends nothing, and [Promise.all] resolves at once. *)
Theorem empty_queue_sends_nothing (probe : SessionStatus) (total uploaded0 : Z) :
  (missing_of probe total = [] ↔ missing probe = [] ∧ total ≤ 0)
  ∧ (let p := start_pool [] uploaded0 in
     workers p = [] ∧ puts p = [] ∧ uploaded p = uploaded0
     ∧ promise_all p = Some (Return ())
     ∧ ∀ ev : settle T, step r ev p = None).
Proof.
  split.
  - unfold missing_of, all_indices.
    destruct (missing probe) as [|i rest]; simpl.
    + split.
      * intros Hnil. split; [done|]. apply fmap_nil_inv in Hnil.
        destruct (Z.to_nat total) eqn:Hn; [lia|done].
      * intros [_ Hle]. by replace (Z.to_nat total) with 0%nat by lia.
    + split; [done|]. by intros [? _].
  - repeat split. by intros [w uuid|w e|w reply].
Qed.

(** The pool after [k] calls of [uploadWorker], while the queue lasts. *)
Lemma start_pool_calls (missing : list Z) (uploaded0 : Z) (k : nat) :
  (k ≤ length missing)%nat →
  Nat.iter k call_worker
    {| uploadQueue := missing; workers := []; uploaded := uploaded0;
       claims := []; puts := []; rejection := None |}
  = {| uploadQueue := drop k missing; workers := Hashing <$> take k missing;
       uploaded := uploaded0; claims := imap pair (take k missing);
       puts := []; rejection := None |}.
Proof.
  induction k as [|k IH]; intros Hk.
  - by rewrite drop_0, take_0.
  - simpl. rewrite IH by lia.
    destruct (lookup_lt_is_Some_2 missing k ltac:(lia)) as [i Hi].
    unfold call_worker, loop_head. simpl.
    rewrite (drop_S _ _ _ Hi), (take_S_r _ _ _ Hi). simpl.
    rewrite fmap_app, imap_app, length_fmap, length_take. simpl.
    repeat f_equal; lia.
Qed.

(** X12.  When the pool starts, worker [k] of the
    [min 4 (queue length)] workers holds the [k]-th index of the queue
    and is hashing its chunk; the rest of the queue waits, and nothing
    has been sent yet. *)
Theorem start_pool_shape (missing : list Z) (uploaded0 : Z) :
  let n := Nat.min 4 (length missing) in
  start_pool missing uploaded0
  = {| uploadQueue := drop n missing; workers := Hashing <$> take n missing;
       uploaded := uploaded0; claims := imap pair (take n missing);
       puts := []; rejection := None |}.
Proof.
  intros n. unfold start_pool. rewrite worker_count_min.
  apply start_pool_calls. lia.
Qed.

Lemma start_pool_workers (missing : list Z) (uploaded0 : Z) :
  start_pool missing uploaded0
  = {| uploadQueue := drop (worker_count missing) missing;
       workers := Hashing <$> take (worker_count missing) missing;
       uploaded := uploaded0;
       claims := imap pair (take (worker_count missing) missing);
       puts := []; rejection := None |}.
Proof. apply start_pool_calls. rewrite worker_count_min. lia. Qed.

(** A step counts an upload that was accepted, and nothing else. *)
Lemma uploaded_after_step (ev : settle T) (p p' : pool) :
  step r ev p = Some p' →
  uploaded p' = uploaded p + (if accepts ev then 1 else 0).
Proof.
  intros Hstep.
  destruct ev as [w uuid|w e|w reply]; simpl in Hstep;
    destruct (workers p !! w) as [[i|i| |e']|] eqn:Hw; simplify_eq; simpl;
    try lia.
  destruct (uploadChunk reply) as [[]|e]; simplify_eq; simpl; [|lia].
  unfold loop_head in Hstep. simpl in Hstep.
  destruct (uploadQueue p); by simplify_eq.
Qed.

(** The counter [uploaded] against the requests sent. *)
Lemma uploaded_step (uploaded0 : Z) (ev : settle T) (p p' : pool) :
  uploaded0 ≤ uploaded p
  ∧ uploaded p + Z.of_nat (uploading p) ≤ uploaded0 + Z.of_nat (length (puts p))
  ∧ (rejection p = None →
     uploaded p + Z.of_nat (uploading p) = uploaded0 + Z.of_nat (length (puts p))) →
  step r ev p = Some p' →
  uploaded0 ≤ uploaded p'
  ∧ uploaded p' + Z.of_nat (uploading p') ≤ uploaded0 + Z.of_nat (length (puts p'))
  ∧ (rejection p' = None →
     uploaded p' + Z.of_nat (uploading p') = uploaded0 + Z.of_nat (length (puts p'))).
Proof.
  intros (Hlow & Hhigh & Heq) Hstep. unfold uploading in *.
  destruct ev as [w uuid|w e|w reply]; simpl in Hstep;
    destruct (workers p !! w) as [[i|i| |e']|] eqn:Hw; simplify_eq.
  - pose proof (sum_insert in_flight _ _ _ (Uploading i) Hw) as Hsum.
    simpl in *. rewrite length_app. simpl.
    split; [lia|]. split; [lia|]. intros Hr. specialize (Heq Hr). lia.
  - pose proof (sum_insert in_flight _ _ _ (Thrown e) Hw) as Hsum.
    simpl in *. split; [lia|]. split; [lia|done].
  - destruct (uploadChunk reply) as [[]|e]; simplify_eq.
    + unfold loop_head in Hstep. simpl in Hstep.
      destruct (uploadQueue p) as [|j rest]; simplify_eq; simpl.
      * pose proof (sum_insert in_flight _ _ _ Finished Hw) as Hsum.
        simpl in *.
        split; [lia|]. split; [lia|]. intros Hr. specialize (Heq Hr). lia.
      * pose proof (sum_insert in_flight _ _ _ (Hashing j) Hw) as Hsum.
        simpl in *.
        split; [lia|]. split; [lia|]. intros Hr. specialize (Heq Hr). lia.
    + pose proof (sum_insert in_flight _ _ _ (Thrown e) Hw) as Hsum.
      simpl in *. split; [lia|]. split; [lia|done].
Qed.

(** X13.  The counter behind the progress display starts at the number of
    chunks the probe reported received and never runs ahead of the
    requests sent.  It never goes down: a step of the pool adds one to it
    when an upload is accepted and leaves it as it is otherwise, also when
    an upload is refused.  When the run completes it has grown by exactly
    the length of the queue. *)
Theorem uploaded_counts_sent (missing : list Z) (uploaded0 : Z) (p : pool) :
  reachable T r missing uploaded0 p →
  uploaded0 ≤ uploaded p ≤ uploaded0 + Z.of_nat (length (puts p))
  ∧ (∀ (ev : settle T) (p' : pool), step r ev p = Some p' →
       uploaded p' = uploaded p + (if accepts ev then 1 else 0))
  ∧ (promise_all p = Some (Return ()) →
     uploaded p = uploaded0 + Z.of_nat (length missing)).
Proof.
  intros Hreach.
  assert (uploaded0 ≤ uploaded p
          ∧ uploaded p + Z.of_nat (uploading p) ≤ uploaded0 + Z.of_nat (length (puts p))
          ∧ (rejection p = None →
             uploaded p + Z.of_nat (uploading p)
             = uploaded0 + Z.of_nat (length (puts p)))) as (Hlow & Hhigh & Heq).
  { destruct Hreach as [evs Hrun]. revert Hrun.
    assert (uploaded0 ≤ uploaded (start_pool missing uploaded0)
            ∧ uploaded (start_pool missing uploaded0)
              + Z.of_nat (uploading (start_pool missing uploaded0))
              ≤ uploaded0 + Z.of_nat (length (puts (start_pool missing uploaded0)))
            ∧ (rejection (start_pool missing uploaded0) = None →
               uploaded (start_pool missing uploaded0)
               + Z.of_nat (uploading (start_pool missing uploaded0))
               = uploaded0 + Z.of_nat (length (puts (start_pool missing uploaded0)))))
      as Hstart.
    { rewrite start_pool_workers. unfold uploading. simpl.
      rewrite <- list_fmap_compose.
      rewrite (sum_list_fmap_same 0) by (by apply Forall_forall).
      rewrite Nat.mul_0_r. split; [lia|]. split; [lia|]. intros _. lia. }
    revert Hstart. generalize (start_pool missing uploaded0).
    induction evs as [|ev evs IH]; intros p0 Hp0 Hrun; simpl in Hrun.
    - by simplify_eq.
    - destruct (step r ev p0) as [p1|] eqn:Hstep; simpl in Hrun; [|done].
      eapply IH; [|done]. by eapply uploaded_step. }
  split; [lia|]. split; [intros ev p'; apply uploaded_after_step|].
  intros Hres.
  destruct (resolved_drained r _ _ _ Hreach Hres) as (Hrej & Hempty & Hnone).
  pose proof (reachable_invariant r _ _ _ Hreach) as [Hq _ _ Ha _ _].
  assert (uploading p = 0%nat) as Hidle.
  { unfold promise_all in Hres. rewrite Hrej in Hres.
    destruct (forallb is_Finished (workers p)) eqn:Hall; [|done].
    unfold uploading. rewrite (sum_list_fmap_same 0); [lia|].
    apply Forall_forall. intros s Hs.
    by rewrite (all_finished _ _ Hall Hs). }
  specialize (Heq Hrej). rewrite Hidle in Heq.
  assert (length (puts p) = length missing) as <-; [|lia].
  rewrite <- Hq, Hempty, app_nil_r, (Ha Hrej), Hnone, app_nil_r.
  unfold sent. by rewrite length_fmap.
Qed.

Lemma work_left_call_worker (p : pool) :
  work_left (call_worker p) = work_left p.
Proof.
  unfold call_worker, loop_head, work_left.
  destruct (uploadQueue p) as [|i rest] eqn:Hq; simpl;
    rewrite ?Hq, fmap_app, sum_app; simpl; lia.
Qed.

Lemma work_left_step (ev : settle T) (p p' : pool) :
  step r ev p = Some p' → (work_left p' < work_left p)%nat.
Proof.
  intros Hstep. unfold work_left.
  destruct ev as [w uuid|w e|w reply]; simpl in Hstep;
    destruct (workers p !! w) as [[i|i| |e']|] eqn:Hw; simplify_eq.
  - pose proof (sum_insert awaits _ _ _ (Uploading i) Hw). simpl in *. lia.
  - pose proof (sum_insert awaits _ _ _ (Thrown e) Hw). simpl in *. lia.
  - destruct (uploadChunk reply) as [[]|e]; simplify_eq.
    + unfold loop_head in Hstep. simpl in Hstep.
      destruct (uploadQueue p) as [|j rest]; simplify_eq; simpl.
      * pose proof (sum_insert awaits _ _ _ Finished Hw). simpl in *. lia.
      * pose proof (sum_insert awaits _ _ _ (Hashing j) Hw). simpl in *. lia.
    + pose proof (sum_insert awaits _ _ _ (Thrown e) Hw). simpl in *. lia.
Qed.

(** X14.  A run of the pool is finite: whatever the order in which the
    awaits settle and whatever the server answers, no more than two
    awaits settle per queued index. *)
Theorem run_length_bound
    (missing : list Z) (uploaded0 : Z) (evs : list (settle T)) (p : pool) :
  steps r evs (start_pool missing uploaded0) = Some p →
  (length evs + work_left p ≤ 2 * length missing)%nat.
Proof.
  assert (work_left (start_pool missing uploaded0) = (2 * length missing)%nat) as <-.
  { unfold start_pool. induction (worker_count missing) as [|n IH]; simpl.
    - unfold work_left. simpl. lia.
    - by rewrite work_left_call_worker. }
  generalize (start_pool missing uploaded0). revert p.
  induction evs as [|ev evs IH]; intros p p0 Hrun; simpl in Hrun.
  - simplify_eq. simpl. lia.
  - destruct (step r ev p0) as [p1|] eqn:Hstep; simpl in Hrun; [|done].
    specialize (IH _ _ Hrun). apply work_left_step in Hstep. simpl. lia.
Qed.

Lemma thrown_rejects_step (ev : settle T) (p p' : pool) :
  (∀ w e, workers p !! w = Some (Thrown e) → is_Some (rejection p)) →
  step r ev p = Some p' →
  ∀ w e, workers p' !! w = Some (Thrown e) → is_Some (rejection p').
Proof.
  intros Hinv Hstep w0 e0.
  assert (∀ w s, s ≠ Thrown e0 →
            <[w := s]> (workers p) !! w0 = Some (Thrown e0) →
            workers p !! w0 = Some (Thrown e0)) as Hother.
  { intros w s Hs Hl. apply list_lookup_insert_Some in Hl.
    by destruct Hl as [(_ & ? & _)|[_ ?]]. }
  destruct ev as [w uuid|w e|w reply]; simpl in Hstep;
    destruct (workers p !! w) as [[i|i| |e']|] eqn:Hw; simplify_eq; simpl;
    try by eauto.
  - intros Hl. apply Hother in Hl; [by eapply Hinv|done].
  - destruct (uploadChunk reply) as [[]|e]; simplify_eq; simpl; [|by eauto].
    unfold loop_head in Hstep. simpl in Hstep.
    destruct (uploadQueue p); simplify_eq; simpl;
      intros Hl; apply Hother in Hl; try done; by eapply Hinv.
Qed.

Lemma thrown_rejects (missing : list Z) (uploaded0 : Z) (p : pool) :
  reachable T r missing uploaded0 p →
  ∀ w e, workers p !! w = Some (Thrown e) → is_Some (rejection p).
Proof.
  intros [evs Hrun]. revert Hrun.
  assert (∀ w e, workers (start_pool missing uploaded0) !! w = Some (Thrown e) →
            is_Some (rejection (start_pool missing uploaded0))) as Hstart.
  { rewrite start_pool_workers. simpl. intros w e Hl.
    rewrite list_lookup_fmap in Hl.
    by destruct (take _ missing !! w). }
  revert Hstart. generalize (start_pool missing uploaded0).
  induction evs as [|ev evs IH]; intros p0 Hp0 Hrun; simpl in Hrun.
  - by simplify_eq.
  - destruct (step r ev p0) as [p1|] eqn:Hstep; simpl in Hrun; [|done].
    eapply IH; [|done]. by eapply thrown_rejects_step.
Qed.

(** X15.  The pool cannot hang: as long as [Promise.all] is pending some
    worker is waiting for its digest or for its upload, and that await
    can settle, whatever it settles with.  Once [Promise.all] has
    resolved nothing of the pool runs any more. *)
Theorem pool_never_hangs (missing : list Z) (uploaded0 : Z) (p : pool) :
  reachable T r missing uploaded0 p →
  (promise_all p = None →
   ∃ w i,
     (workers p !! w = Some (Hashing i)
      ∧ (∀ uuid, is_Some (step r (Hashed (T := T) w uuid) p))
      ∧ ∀ e, is_Some (step r (HashFailed (T := T) w e) p))
     ∨ (workers p !! w = Some (Uploading i)
        ∧ ∀ reply : completion (response T), is_Some (step r (Fetched w reply) p)))
  ∧ (promise_all p = Some (Return ()) → ∀ ev : settle T, step r ev p = None).
Proof.
  intros Hreach. split.
  - intros Hpending. unfold promise_all in Hpending.
    destruct (rejection p) eqn:Hrej; [done|].
    destruct (forallb is_Finished (workers p)) eqn:Hall; [done|].
    assert (∃ w s, workers p !! w = Some s ∧ is_Finished s = false)
      as (w & s & Hw & Hs).
    { clear -Hall. induction (workers p) as [|s ws IH]; [done|].
      simpl in Hall. apply andb_false_iff in Hall as [Hs|Hws].
      - by exists 0%nat, s.
      - destruct (IH Hws) as (w & s' & Hw & Hs'). by exists (S w), s'. }
    destruct s as [i|i| |e]; [| |done|].
    + exists w, i. left. split; [done|]. split.
      * intros uuid. simpl. rewrite Hw. by eexists.
      * intros e. simpl. rewrite Hw. by eexists.
    + exists w, i. right. split; [done|]. intros reply. simpl. rewrite Hw.
      destruct (uploadChunk reply) as [[]|e]; [|by eexists].
      destruct (loop_head w _) as [s p1]. by eexists.
    + destruct (thrown_rejects _ _ _ Hreach w e Hw) as [e0 He0]. congruence.
  - intros Hres. unfold promise_all in Hres.
    destruct (rejection p); [done|].
    destruct (forallb is_Finished (workers p)) eqn:Hall; [|done].
    assert (∀ w, workers p !! w = None ∨ workers p !! w = Some Finished) as Hw.
    { intros w. destruct (workers p !! w) as [s|] eqn:Hl; [|by left].
      apply list_elem_of_lookup_2 in Hl. right.
      by rewrite (all_finished _ _ Hall Hl). }
    intros [w uuid|w e|w reply]; simpl; by destruct (Hw w) as [-> | ->].
Qed.

End PoolRuns.

Section PoolRunsExamples.
Import Js Api UploadManager Run.

Lemma uploaded_counts_sent_witness :
  ∃ p, reachable () Sample.upload [0; 1; 2] 0 p
       ∧ promise_all p = Some (Return ()) ∧ uploaded p = 3.
Proof.
  destruct smooth_run_reachable as (p & Hrun & Hres & _).
  assert (reachable () Sample.upload [0; 1; 2] 0 p) as Hreach
    by (by exists Sample.smooth_run).
  destruct (uploaded_counts_sent Sample.upload [0; 1; 2] 0 p Hreach)
    as (_ & _ & Hdone).
  exists p. repeat split; try done. by rewrite (Hdone Hres).
Defined.

Lemma run_length_bound_witness :
  ∃ p, steps Sample.upload Sample.smooth_run (start_pool [0; 1; 2] 0) = Some p
       ∧ (length Sample.smooth_run + work_left p ≤ 6)%nat.
Proof.
  destruct smooth_run_reachable as (p & Hrun & _).
  exists p. split; [done|].
  apply (run_length_bound Sample.upload [0; 1; 2] 0 Sample.smooth_run p Hrun).
Defined.

Lemma pool_never_hangs_witness :
  ∃ p w i, reachable () Sample.upload [0; 1; 2] 0 p
           ∧ workers p !! w = Some (Hashing i).
Proof.
  assert (reachable () Sample.upload [0; 1; 2] 0 (start_pool [0; 1; 2] 0)) as Hreach
    by (by exists []).
  destruct (pool_never_hangs Sample.upload [0; 1; 2] 0 _ Hreach) as [Hpending _].
  destruct (Hpending eq_refl) as (w & i & [(Hw & _)|(Hw & _)]).
  - by exists (start_pool [0; 1; 2] 0), w, i.
  - exfalso. destruct w as [|[|[|w]]]; vm_compute in Hw; discriminate.
Defined.

End PoolRunsExamples.

(** ** [handleUpload]: how an upload ends *)

Section UploadEnds.
Import Js Api UploadManager.
Context `{Platform} {T : Type}.

Lemma poll_loop_cases (remaining attempt : nat)
    (state_at : nat → completion SessionStatus) (v : view) :
  match poll_loop remaining attempt state_at v with
  | Returned v' =>
      status v' = STATUS_DONE ∧ progressPercent v' = 100
      ∧ notified v' = S (notified v) ∧ error v' = error v
  | Exhausted v' | Raised _ v' => notified v' = notified v ∧ error v' = error v
  end.
Proof.
  revert attempt v. induction remaining as [|n IH]; intros attempt v; simpl; [done|].
  destruct (state_at attempt) as [state|e]; [|done].
  destruct (bool_decide (session_status state = "completed")); [done|].
  apply (IH (S attempt) (count_poll v)).
Qed.

Lemma finish_upload_cases (finalized : completion FinalizeResult)
    (state_at : nat → completion SessionStatus) (v : view) :
  let v' := finish_upload finalized state_at v in
  (status v' = STATUS_DONE ∧ progressPercent v' = 100
   ∧ notified v' = S (notified v) ∧ error v' = error v)
  ∨ (status v' = STATUS_ERROR ∧ progressPercent v' = 0
     ∧ notified v' = notified v ∧ is_Some (error v')).
Proof.
  unfold finish_upload. generalize POLL_ATTEMPTS. intros n.
  destruct finalized as [finalizeResult|e]; [|right; simpl; eauto].
  destruct (bool_decide (finalize_status finalizeResult = "completed")); simpl;
    [by left|].
  match goal with |- context [poll_loop n ?a state_at ?v0] =>
    pose proof (poll_loop_cases n a state_at v0) as Hexit;
    destruct (poll_loop n a state_at v0) as [v1|v1|e v1] end; simpl in *.
  - left. naive_solver.
  - left. destruct Hexit as [-> ->]. done.
  - right. destruct Hexit as [-> _]. eauto.
Qed.

Lemma chunk_percent_bounds (uploaded total : Z) :
  0 ≤ uploaded → 0 ≤ total → 0 ≤ chunk_percent uploaded total ≤ 80.
Proof.
  intros Hu Ht. unfold chunk_percent.
  destruct (Z.eqb_spec total 0) as [|Hne]; [lia|].
  split; [|apply Z.le_min_l].
  apply Z.min_glb; [lia|]. unfold round.
  rewrite <- (Qfloor_Z 0). apply Qfloor_resp_le.
  assert (0 <= inject_Z uploaded / inject_Z total * inject_Z 80)%Q as Hq.
  { apply Qmult_le_0_compat; [|done].
    apply Qmult_le_0_compat; [unfold Qle; simpl; lia|].
    apply Qinv_le_0_compat. unfold Qle. simpl. lia. }
  apply (Qle_trans _ (0 + 0)); [done|].
  by apply Qplus_le_compat.
Qed.

(** What the workers show changes the percentage and nothing else, and
    keeps it between 0 and 80. *)
Lemma run_workers_view (r : run) (evs : list (settle T))
    (p p' : pool) (v v' : view) :
  run_workers r evs p v = Some (p', v') →
  0 ≤ uploaded p → 0 ≤ total r → 0 ≤ progressPercent v ≤ 80 →
  status v' = status v ∧ error v' = error v ∧ notified v' = notified v
  ∧ 0 ≤ progressPercent v' ≤ 80.
Proof.
  revert p v. induction evs as [|ev evs IH]; intros p v Hrun Hu Ht Hv;
    simpl in Hrun.
  - by simplify_eq.
  - destruct (step r ev p) as [p1|] eqn:Hstep; simpl in Hrun; [|done].
    pose proof (uploaded_after_step r ev p p1 Hstep) as Hcount.
    assert (0 ≤ uploaded p1) as Hu1 by (destruct (accepts ev); lia).
    destruct (IH _ _ Hrun Hu1 Ht) as (Hs & He & Hn & Hp).
    + unfold show_progress. destruct (accepts ev); [|done].
      by apply chunk_percent_bounds.
    + unfold show_progress in Hs, He, Hn. by destruct (accepts ev).
Qed.

(** With or without the component in view, [Promise.all] settles the
    same way. *)
Lemma await_workers_pool (r : run) (evs : list (settle T)) (p : pool) (v : view) :
  await_pool r evs p = (λ x, x.1.1.1) <$> await_workers r evs p v.
Proof.
  revert p v. induction evs as [|ev evs IH]; intros p v; simpl;
    destruct (promise_all p); try done.
  destruct (step r ev p) as [p1|]; simpl; [apply IH|done].
Qed.

(** The awaits that settle before [Promise.all] does are a prefix of the
    awaits listed; until then the workers change the percentage only. *)
Lemma await_workers_prefix (r : run) (evs rest : list (settle T))
    (p p' : pool) (v v' : view) (c : completion ()) :
  await_workers r evs p v = Some (c, p', v', rest) →
  ∃ before, evs = before ++ rest
    ∧ await_workers r before p v = Some (c, p', v', [])
    ∧ uploaded p ≤ uploaded p'
    ∧ error v' = error v ∧ notified v' = notified v.
Proof.
  revert p v. induction evs as [|ev evs IH]; intros p v Hrun; simpl in Hrun.
  - destruct (promise_all p) as [c0|] eqn:Hall; [|done]. simplify_eq.
    exists []. simpl. rewrite Hall. by repeat split.
  - destruct (promise_all p) as [c0|] eqn:Hall.
    + simplify_eq. exists []. simpl. rewrite Hall. by repeat split.
    + destruct (step r ev p) as [p1|] eqn:Hstep; simpl in Hrun; [|done].
      destruct (IH _ _ Hrun) as (before & -> & Hbefore & Hle & He & Hn).
      exists (ev :: before). split; [done|]. split.
      { simpl. rewrite Hall, Hstep. done. }
      pose proof (uploaded_after_step r ev p p1 Hstep).
      unfold show_progress in He, Hn.
      destruct (accepts ev); repeat split; try done; lia.
Qed.

(** X16.  A call of [handleUpload] ends in exactly one of two ways: as
    finished, at 100 percent, without an error and with
    [onUploadComplete] called once; or as failed, with an error shown
    and [onUploadComplete] not called.  When the failure is caught the
    percentage is set to 0; workers that survive it go on uploading, and
    each chunk they get accepted sets the percentage again, so that it
    ends between 0 and 80, while the status and the error stay.  Without
    a file nothing happens at all.  (The chunk size is positive.) *)
Theorem handleUpload_ends (token : string) (file : option File) (chunkSize : Z)
    (w : world T) (v v' : view) :
  0 < chunkSize →
  handleUpload token file chunkSize w v = Some v' →
  match file with
  | None => v' = v
  | Some _ =>
      (status v' = STATUS_DONE ∧ progressPercent v' = 100
       ∧ notified v' = S (notified v) ∧ error v' = None)
      ∨ (status v' = STATUS_ERROR ∧ notified v' = notified v
         ∧ is_Some (error v') ∧ 0 ≤ progressPercent v' ≤ 80
         ∧ ∃ (k : nat) (caught : view),
             handleUpload token file chunkSize
               {| created := created w; probed := probed w;
                  settled := take k (settled w);
                  finalized := finalized w; state_at := state_at w |} v
             = Some caught
             ∧ status caught = STATUS_ERROR ∧ progressPercent caught = 0
             ∧ error caught = error v' ∧ notified caught = notified v')
  end.
Proof.
  intros Hsize. destruct file as [file|]; [|by intros [= <-]].
  unfold handleUpload. cbn [created probed settled finalized state_at].
  destruct (created w) as [session|e].
  2:{ intros [= <-]. right. cbn.
      split; [done|]. split; [done|]. split; [by eexists|]. split; [lia|].
      exists 0%nat. eexists. split; [reflexivity|]. done. }
  destruct (probed w) as [probe|e].
  2:{ intros [= <-]. right. cbn.
      split; [done|]. split; [done|]. split; [by eexists|]. split; [lia|].
      exists 0%nat. eexists. split; [reflexivity|]. done. }
  match goal with |- context [await_workers ?r0 _ ?p0 ?v0] =>
    set (r := r0); set (p0' := p0); set (v0' := v0) end.
  destruct (await_workers r (settled w) p0' v0')
    as [[[[c p] v1] rest]|] eqn:Hawait; [|done].
  destruct (await_workers_prefix _ _ _ _ _ _ _ _ Hawait)
    as (before & Hsplit & Hbefore & Hle & He1 & Hn1).
  change (error v0') with (@None string) in He1.
  change (notified v0') with (notified v) in Hn1.
  assert (take (length before) (settled w) = before) as Htake
    by (by rewrite Hsplit, take_app_length).
  destruct c as [[]|e].
  - intros [= <-].
    destruct (finish_upload_cases (finalized w) (state_at w) v1)
      as [(? & ? & ? & ?)|(? & ? & ? & ?)].
    + left. repeat split; congruence.
    + right. repeat split; try congruence; try lia.
      exists (length (settled w)), (finish_upload (finalized w) (state_at w) v1).
      rewrite firstn_all, Hawait. repeat split; congruence.
  - intros Hrun.
    destruct (run_workers r rest p (report_error e v1)) as [[p2 v2]|] eqn:Hrest;
      simpl in Hrun; [|done].
    simplify_eq.
    destruct (run_workers_view _ _ _ _ _ _ Hrest) as (Hs & He & Hn & Hp).
    + assert (uploaded p0' = received_count probe) as Hstart
        by (unfold p0'; by rewrite start_pool_workers).
      unfold received_count in Hstart. lia.
    + apply ceil_div_nonneg; [done|apply size_nonneg].
    + simpl. lia.
    + right. cbn in Hs, He, Hn. repeat split; try congruence; try lia.
      { rewrite He. by eexists. }
      exists (length before), (report_error e v1).
      rewrite Htake, Hbefore. cbn. repeat split; congruence.
Qed.

End UploadEnds.

Section UploadEndsExamples.
Import Js Api UploadManager.

(** The first chunk to be answered is refused; the two other workers
    have their chunks accepted afterwards. *)
Lemma handleUpload_ends_witness :
  ∃ v', handleUpload "t" (Some Sample.file) 2
          {| created := Sample.fresh_session; probed := Sample.nothing_received;
             settled := [Hashed 0 "u0"; Fetched 0 Sample.server_error;
                         Hashed 1 "u1"; Fetched 1 Sample.accepted;
                         Hashed 2 "u2"; Fetched 2 Sample.accepted];
             finalized := Throw (TypeError "Failed to fetch");
             state_at := λ _, Throw (TypeError "Failed to fetch") |}
          Sample.idle = Some v'
        ∧ status v' = STATUS_ERROR ∧ notified v' = 0%nat
        ∧ error v' = Some "Chunk upload failed (500)"
        ∧ progressPercent v' = 53.
Proof.
  set (w := {| created := Sample.fresh_session; probed := Sample.nothing_received;
               settled := [Hashed 0 "u0"; Fetched 0 Sample.server_error;
                           Hashed 1 "u1"; Fetched 1 Sample.accepted;
                           Hashed 2 "u2"; Fetched 2 Sample.accepted];
               finalized := Throw (TypeError "Failed to fetch");
               state_at := λ _, Throw (TypeError "Failed to fetch") |}).
  assert (handleUpload "t" (Some Sample.file) 2 w Sample.idle
          = Some {| status := STATUS_ERROR; progressPercent := 53;
                    finalizing := false; fileId := None;
                    error := Some "Chunk upload failed (500)";
                    notified := 0; polled := 0 |}) as Hrun
    by (vm_compute; reflexivity).
  eexists. split; [exact Hrun|].
  pose proof (handleUpload_ends "t" (Some Sample.file) 2 w Sample.idle _
                ltac:(lia) Hrun) as Hends.
  destruct Hends as [(Hdone & _)|(Herr & Hn & _)]; [discriminate Hdone|].
  repeat split; done.
Defined.

End UploadEndsExamples.


(** ** Keys and endpoints of chunks *)

Section ChunkNames.
Import Js Api UploadManager.
Context `{Platform}.

Lemma append_cancel_r (s1 s2 u : string) : s1 +:+ u = s2 +:+ u → s1 = s2.
Proof.
  revert s2. induction s1 as [|c s1 IH]; intros [|c' s2] Heq.
  - done.
  - apply (f_equal String.length) in Heq.
    rewrite !length_append in Heq. simpl in Heq. lia.
  - apply (f_equal String.length) in Heq.
    rewrite !length_append in Heq. simpl in Heq. lia.
  - rewrite !append_cons in Heq. simplify_eq. f_equal. by apply IH.
Qed.

(** X17.  Two different chunk indices of a session never share an
    endpoint, and never share an idempotency key, not even when the same
    UUID were drawn for both. *)
Theorem chunk_names_distinct
    (token sessionId : string) (i j : Z) (chunk chunk' : blob)
    (checksum checksum' key key' uuid : string) :
  i ≠ j →
  url (uploadChunk_request token sessionId i chunk checksum key)
  ≠ url (uploadChunk_request token sessionId j chunk' checksum' key')
  ∧ idempotencyKey sessionId i uuid ≠ idempotencyKey sessionId j uuid.
Proof.
  intros Hij. split.
  - unfold uploadChunk_request. simpl. intros Heq. apply Hij.
    repeat (apply (inj (String.app _)) in Heq). unfold String_ in Heq.
    by apply (inj pretty).
  - unfold idempotencyKey. intros Heq. apply Hij.
    apply (inj (String.app _)) in Heq.
    change ("-" +:+ String_ i +:+ "-" +:+ uuid)
      with (String "-" (String_ i +:+ "-" +:+ uuid)) in Heq.
    change ("-" +:+ String_ j +:+ "-" +:+ uuid)
      with (String "-" (String_ j +:+ "-" +:+ uuid)) in Heq.
    simplify_eq. apply append_cancel_r in Heq. unfold String_ in Heq.
    by apply (inj pretty).
Qed.

End ChunkNames.

Section ChunkNamesExamples.
Import Js Api UploadManager.

Lemma chunk_names_distinct_witness :
  idempotencyKey "s1" 1 "u" ≠ idempotencyKey "s1" 11 "u".
Proof.
  apply (chunk_names_distinct "t" "s1" 1 11 [] [] "" "" "" "" "u"). lia.
Defined.

End ChunkNamesExamples.

(** ** Link forms: what is sent, and when *)

Section LinkForms.
Import Js Api.
Context `{Platform}.

Lemma upload_link_options_lookups (form : UploadManager.link_form)
    (payload : gmap string jsval) :
  payload !! "password" = None →
  UploadManager.link_options form payload !! "password"
    = (if decide (trim (UploadManager.linkPassword form) = "") then None
       else Some (VStr (trim (UploadManager.linkPassword form))))
  ∧ UploadManager.link_options form payload !! "require_download_page"
    = Some (VBool (UploadManager.linkRequirePage form))
  ∧ UploadManager.link_options form payload !! "create_short_link"
    = Some (VBool (UploadManager.linkCreateShort form)).
Proof.
  intros Hpw. unfold UploadManager.link_options.
  destruct (decide (trim (UploadManager.linkPassword form) = "")) as [->|Hne].
  - replace (truthy (Some "")) with false by done. by simplify_map_eq.
  - rewrite (truthy_Some_true _ Hne). by simplify_map_eq.
Qed.

Lemma files_link_options_lookups (form : FileManager.LinkFormState)
    (payload : gmap string jsval) :
  payload !! "password" = None →
  FileManager.link_options form payload !! "password"
    = (if decide (trim (FileManager.password form) = "") then None
       else Some (VStr (trim (FileManager.password form))))
  ∧ FileManager.link_options form payload !! "require_download_page"
    = Some (VBool (FileManager.requireDownloadPage form))
  ∧ FileManager.link_options form payload !! "create_short_link"
    = Some (VBool (FileManager.createShortLink form)).
Proof.
  intros Hpw. unfold FileManager.link_options.
  destruct (decide (trim (FileManager.password form) = "")) as [->|Hne].
  - replace (truthy (Some "")) with false by done. by simplify_map_eq.
  - rewrite (truthy_Some_true _ Hne). by simplify_map_eq.
Qed.

(** X18.  In a link-creation request, from the upload panel or from the
    file list, the password is present exactly when the entered password
    is not empty after trimming, and it is the trimmed password; the
    download-page and short-link choices are always sent. *)
Theorem link_request_options (token fileId : string)
    (form : UploadManager.link_form) (st : FileManager.state) :
  (∀ req, UploadManager.create_link_attempt token (Some fileId) form
          = UploadManager.Send req →
     ∃ payload, body (init req) = Some (BodyJson payload)
       ∧ payload !! "password"
         = (if decide (trim (UploadManager.linkPassword form) = "") then None
            else Some (VStr (trim (UploadManager.linkPassword form))))
       ∧ payload !! "require_download_page"
         = Some (VBool (UploadManager.linkRequirePage form))
       ∧ payload !! "create_short_link"
         = Some (VBool (UploadManager.linkCreateShort form)))
  ∧ (∀ st' req, FileManager.handleCreateLink token fileId st
                = FileManager.Send st' req →
     let form := default FileManager.createDefaultFormState
                   (FileManager.linkForms st !! fileId) in
     ∃ payload, body (init req) = Some (BodyJson payload)
       ∧ payload !! "password"
         = (if decide (trim (FileManager.password form) = "") then None
            else Some (VStr (trim (FileManager.password form))))
       ∧ payload !! "require_download_page"
         = Some (VBool (FileManager.requireDownloadPage form))
       ∧ payload !! "create_short_link"
         = Some (VBool (FileManager.createShortLink form))).
Proof.
  split.
  - unfold UploadManager.create_link_attempt. intros req Hreq.
    destruct (truthy (Some fileId)); simpl in Hreq; [|done].
    destruct (UploadManager.linkNoExpiry form); simpl in Hreq.
    + simplify_eq. eexists. split; [reflexivity|].
      by apply upload_link_options_lookups.
    + destruct (truthy (Some (UploadManager.linkExpiresAt form)));
        simpl in Hreq; [|done].
      destruct (toISOString _) as [iso|]; simpl in Hreq; [|done].
      simplify_eq. eexists. split; [reflexivity|].
      by apply upload_link_options_lookups.
  - unfold FileManager.handleCreateLink. intros st' req Hreq.
    set (form' := default FileManager.createDefaultFormState
                    (FileManager.linkForms st !! fileId)) in *.
    destruct (negb (FileManager.noExpiry form')
              && negb (truthy (Some (FileManager.expiresAt form')))); [done|].
    destruct (FileManager.noExpiry form'); simpl in Hreq.
    + simplify_eq. eexists. split; [reflexivity|].
      by apply files_link_options_lookups.
    + destruct (truthy (Some (FileManager.expiresAt form'))); simpl in Hreq.
      * destruct (toISOString _) as [iso|]; simpl in Hreq; [|done].
        simplify_eq. eexists. split; [reflexivity|].
        by apply files_link_options_lookups.
      * simplify_eq. eexists. split; [reflexivity|].
        by apply files_link_options_lookups.
Qed.

(** X19.  A link-creation request is sent exactly when "never expires" is
    chosen, or an expiry is entered and is a valid date.  With "never
    expires" chosen the expiry field is not looked at; an invalid date
    sends nothing from either component. *)
Theorem link_request_sent_iff (token fileId : string)
    (form : UploadManager.link_form) (st : FileManager.state) :
  fileId ≠ "" →
  ((∃ req, UploadManager.create_link_attempt token (Some fileId) form
           = UploadManager.Send req)
   ↔ UploadManager.linkNoExpiry form = true
     ∨ (UploadManager.linkExpiresAt form ≠ ""
        ∧ is_Some (toISOString (UploadManager.linkExpiresAt form))))
  ∧ (let form := default FileManager.createDefaultFormState
                   (FileManager.linkForms st !! fileId) in
     (∃ st' req, FileManager.handleCreateLink token fileId st
                 = FileManager.Send st' req)
     ↔ FileManager.noExpiry form = true
       ∨ (FileManager.expiresAt form ≠ ""
          ∧ is_Some (toISOString (FileManager.expiresAt form)))).
Proof.
  intros Hfile. split.
  - unfold UploadManager.create_link_attempt.
    rewrite (truthy_Some_true _ Hfile). simpl.
    destruct (UploadManager.linkNoExpiry form); simpl.
    + split; [by left|]. intros _. by eexists.
    + destruct (decide (UploadManager.linkExpiresAt form = "")) as [->|Hne].
      * replace (truthy (Some "")) with false by done. simpl.
        split; [by intros [? ?]|]. by intros [?|[? _]].
      * rewrite (truthy_Some_true _ Hne). simpl.
        destruct (toISOString _) as [iso|].
        -- split; [|by eexists]. intros _. right. split; [done|by eexists].
        -- split; [by intros [? ?]|]. intros [?|[_ [? ?]]]; done.
  - intros form'. unfold FileManager.handleCreateLink. fold form'.
    destruct (FileManager.noExpiry form'); simpl.
    + split; [by left|]. intros _. by do 2 eexists.
    + destruct (decide (FileManager.expiresAt form' = "")) as [Heq|Hne].
      * rewrite Heq. replace (truthy (Some "")) with false by done. simpl.
        split; [by intros (? & ? & ?)|]. by intros [?|[? _]].
      * rewrite (truthy_Some_true _ Hne). simpl.
        destruct (toISOString _) as [iso|]; simpl.
        -- split; [|by do 2 eexists]. intros _. right. split; [done|by eexists].
        -- split; [by intros (? & ? & ?)|]. intros [?|[_ [? ?]]]; done.
Qed.

(** X20.  Ticking "never expires" empties the expiry field, and unticking
    it does not bring the date back: after ticking and unticking, a
    submit is refused with the validation message, in the upload panel
    and in the file list alike, whatever date had been entered. *)
Theorem never_expires_discards_date (token fileId : string)
    (form : UploadManager.link_form) (st : FileManager.state) :
  fileId ≠ "" →
  UploadManager.create_link_attempt token (Some fileId)
    (UploadManager.linkNoExpiry_onChange false
       (UploadManager.linkNoExpiry_onChange true form))
  = UploadManager.FormError UploadManager.FORM_ERROR
  ∧ ∃ st', FileManager.handleCreateLink token fileId
             (FileManager.noExpiry_onChange fileId false
                (FileManager.noExpiry_onChange fileId true st))
           = FileManager.FormError st'
           ∧ FileManager.formErrors st' !! fileId = Some (Some FileManager.FORM_ERROR).
Proof.
  intros Hfile. split.
  - unfold UploadManager.create_link_attempt.
    by rewrite (truthy_Some_true _ Hfile).
  - unfold FileManager.handleCreateLink, FileManager.noExpiry_onChange,
      FileManager.updateFormState. simpl.
    rewrite !lookup_insert_eq. simpl.
    eexists. split; [reflexivity|]. simpl. by rewrite lookup_insert_eq.
Qed.

End LinkForms.

Section LinkFormsExamples.
Import Js Api.

Lemma link_request_sent_iff_witness :
  ∃ req, UploadManager.create_link_attempt "t" (Some "f1")
           {| UploadManager.linkExpiresAt := "2030-01-01T00:00";
              UploadManager.linkNoExpiry := false;
              UploadManager.linkRequirePage := false;
              UploadManager.linkCreateShort := true;
              UploadManager.linkPassword := "" |}
         = UploadManager.Send req.
Proof.
  apply (link_request_sent_iff "t" "f1" _
           {| FileManager.linkForms := ∅; FileManager.formErrors := ∅;
              FileManager.pending := None |} ltac:(done)).
  right. split; [done|]. by eexists.
Defined.

Lemma never_expires_discards_date_witness :
  UploadManager.create_link_attempt "t" (Some "f1")
    (UploadManager.linkNoExpiry_onChange false
       (UploadManager.linkNoExpiry_onChange true
          {| UploadManager.linkExpiresAt := "2030-01-01T00:00";
             UploadManager.linkNoExpiry := false;
             UploadManager.linkRequirePage := false;
             UploadManager.linkCreateShort := true;
             UploadManager.linkPassword := "" |}))
  = UploadManager.FormError UploadManager.FORM_ERROR.
Proof.
  apply (never_expires_discards_date "t" "f1" _
           {| FileManager.linkForms := ∅; FileManager.formErrors := ∅;
              FileManager.pending := None |} ltac:(done)).
Defined.

End LinkFormsExamples.

(** ** components/FileManager.tsx: rows and forms *)

Section FileRows.
Import Js Api FileManager.
Context `{Platform}.

(** X21.  Toggling a row flips whether that file is expanded and leaves
    every other row as it was; toggling twice gives back the set of
    expanded rows. *)
Theorem toggleExpanded_flips (fileId : string) (prev : gset string) :
  (fileId ∈ toggleExpanded fileId prev ↔ fileId ∉ prev)
  ∧ (∀ other, other ≠ fileId → (other ∈ toggleExpanded fileId prev ↔ other ∈ prev))
  ∧ toggleExpanded fileId (toggleExpanded fileId prev) = prev.
Proof.
  unfold toggleExpanded. split; [|split].
  - destruct (decide (fileId ∈ prev)); set_solver.
  - intros other Hne. destruct (decide (fileId ∈ prev)); set_solver.
  - destruct (decide (fileId ∈ prev)) as [Hin|Hout].
    + rewrite decide_False by set_solver. apply set_eq. intros x.
      destruct (decide (x = fileId)); set_solver.
    + rewrite decide_True by set_solver. set_solver.
Qed.

(** X22.  Editing the form of one file changes only the fields the edit
    names, starting from the default form when the file has none yet; it
    leaves the forms of all other files, the error messages and the
    pending marker untouched. *)
Theorem updateFormState_local (fileId : string) (updates : LinkFormUpdates)
    (st : state) :
  let before := default createDefaultFormState (linkForms st !! fileId) in
  let st' := updateFormState fileId updates st in
  linkForms st' !! fileId = Some (spread before updates)
  ∧ (set_expiresAt updates = None →
     expiresAt (spread before updates) = expiresAt before)
  ∧ (set_noExpiry updates = None →
     noExpiry (spread before updates) = noExpiry before)
  ∧ (set_requireDownloadPage updates = None →
     requireDownloadPage (spread before updates) = requireDownloadPage before)
  ∧ (set_createShortLink updates = None →
     createShortLink (spread before updates) = createShortLink before)
  ∧ (set_password updates = None →
     password (spread before updates) = password before)
  ∧ (∀ other, other ≠ fileId → linkForms st' !! other = linkForms st !! other)
  ∧ formErrors st' = formErrors st ∧ pending st' = pending st.
Proof.
  intros before st'. unfold st', updateFormState, spread. simpl.
  repeat split; try (by intros ->).
  - by rewrite lookup_insert_eq.
  - intros other Hne. by rewrite lookup_insert_ne.
Qed.

(** X23.  When the request for a link has settled the pending marker is
    cleared.  After a success the form of the file is back to the default
    and its error is cleared, so that submitting again at once is refused
    with the validation message; after a failure the form is kept as
    entered and a non-empty error is shown for the file. *)
Theorem handleCreateLink_settles {A} (token fileId : string)
    (result : completion A) (st : state) :
  let st' := handleCreateLink_settled fileId result st in
  pending st' = None
  ∧ (∀ other, other ≠ fileId →
       linkForms st' !! other = linkForms st !! other
       ∧ formErrors st' !! other = formErrors st !! other)
  ∧ match result with
    | Return _ =>
        linkForms st' !! fileId = Some createDefaultFormState
        ∧ formErrors st' !! fileId = Some None
        ∧ ∃ st'', handleCreateLink token fileId st' = FormError st''
    | Throw e =>
        linkForms st' = linkForms st
        ∧ ∃ shown, formErrors st' !! fileId = Some (Some shown) ∧ shown ≠ ""
    end.
Proof.
  intros st'. unfold st', handleCreateLink_settled, resetFormState.
  destruct result as [a|e]; simpl.
  - split; [done|]. split.
    + intros other Hne. by rewrite !lookup_insert_ne.
    + rewrite !lookup_insert_eq. repeat split.
      unfold handleCreateLink. simpl. rewrite lookup_insert_eq. simpl.
      by eexists.
  - split; [done|]. split.
    + intros other Hne. by rewrite !lookup_insert_ne.
    + split; [done|]. rewrite lookup_insert_eq. eexists. split; [done|].
      unfold or_else. by destruct (decide (message e = "")).
Qed.

End FileRows.

(** ** app/page.tsx: the stored login *)

Section StoredLogin.
Import Js HomePage.
Context (stringify : StoredAuth → string) (parse : string → option StoredAuth).
Context (expired : string → bool).

(** X24.  A login that is stored is the login that is found again,
    whatever had been stored before, provided its serialization reads
    back; it is kept in exactly one of the two stores, the local one when
    it is to be remembered and the session one otherwise. *)
Theorem storeAuth_found (auth : StoredAuth) (remember : bool) (st : storage) :
  stringify auth ≠ "" →
  parse (stringify auth) = Some auth →
  let st' := storeAuth stringify auth remember st in
  persistedAuth parse st' = Some auth
  ∧ localStorage st' !! LOCAL_STORAGE_KEY
    = (if remember then Some (stringify auth) else None)
  ∧ sessionStorage st' !! SESSION_STORAGE_KEY
    = (if remember then None else Some (stringify auth)).
Proof.
  intros Hne Hparse st'. unfold st', storeAuth, persistedAuth, parseStoredAuth.
  destruct remember; simpl.
  - rewrite lookup_delete_eq, lookup_insert_eq.
    by rewrite bool_decide_eq_false_2, Hparse.
  - rewrite lookup_delete_eq, lookup_insert_eq.
    by rewrite bool_decide_eq_false_2, Hparse.
Qed.

(** X25.  Restoring a login gives a token only for a stored login that
    is not expired and whose data loads, and then leaves the stores
    alone; in every other case no login is left in either store.
    Clearing the stored login leaves none to be found. *)
Theorem restoreAuth_outcomes (loaded : string → bool) (st : storage) :
  persistedAuth parse (clearStoredAuth st) = None
  ∧ match restoreAuth parse expired loaded st with
    | (st', Some token) =>
        st' = st
        ∧ ∃ auth, persistedAuth parse st = Some auth ∧ HomePage.token auth = token
                  ∧ expired (expiresAt auth) = false ∧ loaded token = true
    | (st', None) => persistedAuth parse st' = None
    end.
Proof.
  assert (persistedAuth parse (clearStoredAuth st) = None) as Hclear.
  { unfold persistedAuth, clearStoredAuth, parseStoredAuth. simpl.
    by rewrite !lookup_delete_eq. }
  split; [done|]. unfold restoreAuth.
  destruct (persistedAuth parse st) as [auth|] eqn:Hfound; [|done].
  destruct (expired (expiresAt auth)) eqn:Hexp; [done|].
  destruct (loaded (HomePage.token auth)) eqn:Hload; [|done].
  split; [done|]. by exists auth.
Qed.

End StoredLogin.

Section StoredLoginExamples.
Import Js HomePage.

Lemma storeAuth_found_witness :
  let auth := {| token := "jwt"; expiresAt := "2030-01-01T00:00:00Z" |} in
  let stringify := λ a : StoredAuth, token a +:+ " " +:+ expiresAt a in
  let parse := λ raw : string,
    if bool_decide (raw = "jwt 2030-01-01T00:00:00Z") then Some auth else None in
  persistedAuth parse
    (storeAuth stringify auth false
       {| localStorage := {[ LOCAL_STORAGE_KEY := "stale" ]}; sessionStorage := ∅ |})
  = Some auth.
Proof.
  intros auth stringify parse.
  apply (storeAuth_found stringify parse auth false
           {| localStorage := {[ LOCAL_STORAGE_KEY := "stale" ]}; sessionStorage := ∅ |});
    done.
Defined.

End StoredLoginExamples.

(** ** lib/api.ts: [uploadChunk] against [apiFetch] *)

Section ChunkReplies.
Import Js Api.
Context {T : Type}.

(** X26.  [uploadChunk] succeeds on every ok response and only on those:
    it does not read the body of an ok response, so it succeeds also
    where [apiFetch] would fail to parse it.  What it throws for a
    response that is not ok is the same kind of error as [apiFetch]
    throws, and its message is never empty. *)
Theorem uploadChunk_accepts_ok (reply : completion (response T)) :
  (uploadChunk reply = Return () ↔ ∃ r, reply = Return r ∧ ok r = true)
  ∧ (∀ r, reply = Return r → ok r = false →
       ∃ m m', uploadChunk reply = Throw (Error m) ∧ m ≠ ""
               ∧ apiFetch reply = Throw (Error m') ∧ m' ≠ ""
               ∧ (text r ≠ "" → m = text r ∧ m' = text r)).
Proof.
  split.
  - destruct reply as [r|e]; simpl; unfold uploadChunk_response.
    + destruct (ok r) eqn:Hok; simpl.
      * split; [|done]. intros _. by exists r.
      * split; [done|]. intros (r' & [= <-] & Hok'). congruence.
    + split; [done|]. by intros (r & ? & _).
  - intros r -> Hok. simpl. unfold uploadChunk_response, apiFetch_response.
    rewrite Hok. simpl. unfold or_else.
    destruct (decide (text r = "")) as [Hempty|Hne].
    + do 2 eexists. repeat split; try done.
    + do 2 eexists. repeat split; try done.
Qed.

End ChunkReplies.
